(** * shiorigo: the SHIORI request/response codec of [shiori.go]

    A shallow embedding of package [shiori] and a verification of its
    parsing and rendering rules.

    Modelling conventions.
    - A Go [string] is a finite sequence of bytes: Rocq's [string], whose
      characters are 8-bit [ascii] values.
    - A Go [error] interface value is an element of [error]; the returned
      pair [(v, err)] is [(v, o)] with [o = None] for [nil].
    - A run-time panic (index or slice bound out of range) is [None] in the
      option monad; a function that can index a slice returns [option].
    - [Headers] (a Go [map[string]string]) is a [gmap string string]; reading
      an absent key gives the zero value, the empty string.  A nil map and
      an empty map read alike, so both are [∅].
    - [Method], [Protocol] are Go [int] types with [iota] constants: they are
      [Z] with the named constants. *)

From Stdlib Require Import ZArith Ascii String DecimalString.
From Stdlib Require DecimalPos DecimalZ.
From stdpp Require Import base option list gmap strings.

Local Open Scope Z_scope.

(** ** Go strings *)

(** Carriage return and line feed, and the two-byte line terminator. *)
Definition CR : ascii := ascii_of_nat 13.
Definition LF : ascii := ascii_of_nat 10.
Definition CRLF : string := String CR (String LF "").

(** Byte-level helpers on strings. *)
Module Str.

(** [s[n:]]: the string without its first [n] bytes (for [n ≤ len(s)]). *)
Fixpoint drop (n : nat) (s : string) : string :=
  match n, s with
  | O, _ => s
  | S n', String _ s' => drop n' s'
  | S _, EmptyString => EmptyString
  end.

(** [s[:n]]: the first [n] bytes of the string (for [n ≤ len(s)]). *)
Fixpoint take (n : nat) (s : string) : string :=
  match n, s with
  | O, _ => EmptyString
  | S n', String a s' => String a (take n' s')
  | S _, EmptyString => EmptyString
  end.

(** Every byte of the string satisfies [p]. *)
Fixpoint all (p : ascii → bool) (s : string) : bool :=
  match s with
  | EmptyString => true
  | String a s' => p a && all p s'
  end.

End Str.

(** Package [strings] of the Go standard library, as far as [shiori.go]
    uses it. *)
Module Strings.

(** [strings.HasPrefix(s, prefix)]. *)
Definition HasPrefix (s pre : string) : bool := String.prefix pre s.

(** [strings.Index(s, sep)]: offset of the first occurrence of [sep]. *)
Fixpoint Index (s sep : string) : option nat :=
  if HasPrefix s sep then Some O
  else match s with
       | EmptyString => None
       | String _ s' => S <$> Index s' sep
       end.

(** The loop of [strings.genSplit] for a non-empty separator: cut at the
    first occurrence of [sep], continue after it.  [n] bounds the number
    of cuts, as the pre-computed piece count does in Go. *)
Fixpoint genSplit (n : nat) (s sep : string) : list string :=
  match n with
  | O => [s]
  | S n' =>
      match Index s sep with
      | None => [s]
      | Some m =>
          Str.take m s :: genSplit n' (Str.drop (m + String.length sep) s) sep
      end
  end.

(** [strings.Split(s, sep)] for a non-empty [sep] (the package only ever
    splits on [CRLF]).  A string of [len(s)] bytes holds at most [len(s)]
    separators, so this bound never cuts the loop short
    (lemma [Split_unfold]). *)
Definition Split (s sep : string) : list string :=
  genSplit (String.length s) s sep.

End Strings.

(** ** Go run-time checks *)

(** [a[i]]: panics when [i] is out of range. *)
Definition index {A} (a : list A) (i : nat) : option A := a !! i.

(** [a[i:]]: panics when [i > len(a)]. *)
Definition slice_from {A} (a : list A) (i : nat) : option (list A) :=
  if decide (i ≤ length a)%nat then Some (drop i a) else None.

(** ** Errors *)

(** The sentinel errors of package [strconv]. *)
Inductive strconvErr := ErrRange | ErrSyntax.

(** The dynamic types an [error] returned by this package can have: the four
    string-based error types of [shiori.go] and [*strconv.NumError]. *)
Inductive error :=
| InvalidMethodError (msg : string)
| ParseRequestError (msg : string)
| ParseResponseError (msg : string)
| ParseHeaderError (msg : string)
| NumError (Func Num : string) (Err : strconvErr).

(** ** Method and Protocol *)

Definition Method := Z.
Definition InvalidMethod : Method := 0.
Definition GET : Method := 1.
Definition NOTIFY : Method := 2.

(** [func (method Method) String() string] *)
Definition Method_String (method : Method) : string :=
  if method =? GET then "GET"
  else if method =? NOTIFY then "NOTIFY"
  else "".

(** [func ToMethod(method string) (Method, error)] *)
Definition ToMethod (method : string) : Method * option error :=
  if String.eqb method "GET" then (GET, None)
  else if String.eqb method "NOTIFY" then (NOTIFY, None)
  else (InvalidMethod, Some (InvalidMethodError method)).

Definition Protocol := Z.
Definition InvalidProtocol : Protocol := 0.
Definition SHIORI : Protocol := 1.

(** [func (protocol Protocol) String() string] *)
Definition Protocol_String (protocol : Protocol) : string := "SHIORI".

(** ** Regular expressions

    Package [regexp] of the Go standard library, for the fragment the three
    patterns of [shiori.go] are written in.  The patterns are compiled by
    [regexp.MustCompile], that is with Perl flags and no [(?s)] or [(?m)]:
    - [^] and [$] match only at the beginning and at the end of the text;
    - [.] matches every character but line feed;
    - a negated class such as [[^:]] does match line feed;
    - [\d] is the ASCII digits.

    The text is matched byte by byte.  Go decodes UTF-8, but every class
    used here either contains all bytes of value 128 and above ([.],
    [[^:]]) or none ([\d], literals), so a match in bytes is a match in
    characters and conversely. *)
Module Regexp.

(** A character class. *)
Inductive cclass :=
| Dot                 (* [.]    *)
| Digit               (* [\d]   *)
| NotChar (c : ascii) (* [[^c]] *).

Definition isDigit (b : ascii) : bool :=
  (48 <=? nat_of_ascii b)%nat && (nat_of_ascii b <=? 57)%nat.

Definition cmatch (cl : cclass) (b : ascii) : bool :=
  match cl with
  | Dot => negb (Ascii.eqb b LF)
  | Digit => isDigit b
  | NotChar c => negb (Ascii.eqb b c)
  end.

(** Syntax.  Repetition is over a character class, which is all the
    patterns need; [Group n r] is the [n]-th capturing group, numbered
    from 1 by its opening parenthesis. *)
Inductive regexp :=
| Bol                          (* [^] *)
| Eol                          (* [$] *)
| Lit (l : string)             (* literal text *)
| Star (cl : cclass)           (* [cl*], greedy *)
| Plus (cl : cclass)           (* [cl+], greedy *)
| Cat (r1 r2 : regexp)         (* [r1 r2] *)
| Group (n : nat) (r : regexp) (* [(r)] *).

(** [Regexp.NumSubexp]: the number of capturing groups. *)
Fixpoint NumSubexp (r : regexp) : nat :=
  match r with
  | Cat r1 r2 => NumSubexp r1 + NumSubexp r2
  | Group _ r => S (NumSubexp r)
  | _ => 0
  end.

Section Exec.
Context {A : Type}.

(** Greedy repetition of a class: consume the longest run first, give
    back one byte at a time while the continuation [k] fails.  [k]
    receives the consumed text and the rest. *)
Fixpoint rep (cl : cclass) (s : string)
    (k : string → string → option A) : option A :=
  match s with
  | String b s' =>
      if cmatch cl b then
        match rep cl s' (λ c rest, k (String b c) rest) with
        | Some x => Some x
        | None => k "" s
        end
      else k "" s
  | EmptyString => k "" s
  end.

(** One or more: the first byte is not given back. *)
Definition rep1 (cl : cclass) (s : string)
    (k : string → string → option A) : option A :=
  match s with
  | String b s' =>
      if cmatch cl b then rep cl s' (λ c rest, k (String b c) rest)
      else None
  | EmptyString => None
  end.

(** The backtracking matcher.  [i] is the offset of [s] in the text,
    [caps] the groups captured so far; the continuation receives the
    text consumed by [r], the rest and the new captures.  Alternatives
    are tried in Perl's order (leftmost-first), which is the match Go
    returns. *)
Fixpoint exec (r : regexp) (i : nat) (s : string) (caps : list string)
    (k : string → string → list string → option A) : option A :=
  match r with
  | Bol => if i is O then k "" s caps else None
  | Eol => if s is EmptyString then k "" s caps else None
  | Lit l =>
      if Strings.HasPrefix s l then k l (Str.drop (String.length l) s) caps
      else None
  | Star cl => rep cl s (λ c rest, k c rest caps)
  | Plus cl => rep1 cl s (λ c rest, k c rest caps)
  | Cat r1 r2 =>
      exec r1 i s caps (λ c1 s1 caps1,
        exec r2 (i + String.length c1) s1 caps1 (λ c2 s2 caps2,
          k (c1 +:+ c2) s2 caps2))
  | Group n r' =>
      exec r' i s caps (λ c s' caps', k c s' (<[n:=c]> caps'))
  end.
End Exec.

(** The pattern syntax.  [Compile] reads the source text of a pattern in the
    fragment above; [None] is a pattern outside the fragment. *)
Inductive token :=
| TBol | TEol | TOpen | TClose | TPlus | TStar
| TClass (cl : cclass)
| TChar (c : ascii).

Definition isWordChar (b : ascii) : bool :=
  let n := nat_of_ascii b in
  isDigit b || (65 <=? n)%nat && (n <=? 90)%nat ||
  (97 <=? n)%nat && (n <=? 122)%nat || Ascii.eqb b "_".

Fixpoint tokens (s : string) : option (list token) :=
  match s with
  | EmptyString => Some []
  | String c s' =>
      if Ascii.eqb c "^" then cons TBol <$> tokens s'
      else if Ascii.eqb c "$" then cons TEol <$> tokens s'
      else if Ascii.eqb c "(" then cons TOpen <$> tokens s'
      else if Ascii.eqb c ")" then cons TClose <$> tokens s'
      else if Ascii.eqb c "+" then cons TPlus <$> tokens s'
      else if Ascii.eqb c "*" then cons TStar <$> tokens s'
      else if Ascii.eqb c "." then cons (TClass Dot) <$> tokens s'
      else if Ascii.eqb c "\" then
        match s' with
        | String d s'' =>
            if Ascii.eqb d "d" then cons (TClass Digit) <$> tokens s''
            else if isWordChar d then None
            else cons (TChar d) <$> tokens s''
        | EmptyString => None
        end
      else if Ascii.eqb c "[" then
        match s' with
        | String a (String x (String b s'')) =>
            if Ascii.eqb a "^" && Ascii.eqb b "]" then
              cons (TClass (NotChar x)) <$> tokens s''
            else None
        | _ => None
        end
      else if Ascii.eqb c "]" || Ascii.eqb c "{" || Ascii.eqb c "}" ||
              Ascii.eqb c "|" || Ascii.eqb c "?" then None
      else cons (TChar c) <$> tokens s'
  end.

(** [seq] is the concatenation read so far in the current group, if any. *)
Definition snoc (seq : option regexp) (r : regexp) : option regexp :=
  Some (match seq with Some r0 => Cat r0 r | None => r end).

(** A literal byte extends the literal text before it. *)
Definition snocChar (seq : option regexp) (c : ascii) : option regexp :=
  match seq with
  | Some (Lit l) => Some (Lit (l +:+ String c ""))
  | Some (Cat r0 (Lit l)) => Some (Cat r0 (Lit (l +:+ String c "")))
  | _ => snoc seq (Lit (String c ""))
  end.

(** [n] is the number of the next group, [stack] the groups that are open,
    each with its number and the concatenation read before it. *)
Fixpoint build (ts : list token) (n : nat)
    (stack : list (nat * option regexp)) (seq : option regexp) : option regexp :=
  match ts with
  | [] => if stack is [] then seq else None
  | TBol :: ts' => build ts' n stack (snoc seq Bol)
  | TEol :: ts' => build ts' n stack (snoc seq Eol)
  | TOpen :: ts' => build ts' (S n) ((n, seq) :: stack) None
  | TClose :: ts' =>
      match stack, seq with
      | (g, before) :: stack', Some r => build ts' n stack' (snoc before (Group g r))
      | _, _ => None
      end
  | TClass cl :: TPlus :: ts' => build ts' n stack (snoc seq (Plus cl))
  | TClass cl :: TStar :: ts' => build ts' n stack (snoc seq (Star cl))
  | TChar c :: TPlus :: _ | TChar c :: TStar :: _ => None
  | TChar c :: ts' => build ts' n stack (snocChar seq c)
  | _ => None
  end.

Definition Compile (pattern : string) : option regexp :=
  ts ← tokens pattern; build ts 1 [] None.

(** A match of [r] that starts at offset [i], where [s] is the text from
    [i] on: the slice of submatches, element 0 the whole match.  A group
    that took no part in the match is the empty string. *)
Definition matchAt (r : regexp) (i : nat) (s : string) : option (list string) :=
  exec r i s (replicate (S (NumSubexp r)) "")
    (λ c _ caps, Some (<[O:=c]> caps)).

(** The leftmost match: try every start offset in turn. *)
Fixpoint search (r : regexp) (i : nat) (s : string) : option (list string) :=
  match matchAt r i s with
  | Some m => Some m
  | None =>
      match s with
      | EmptyString => None
      | String _ s' => search r (S i) s'
      end
  end.

(** [Regexp.FindStringSubmatch]: [None] is the nil slice (no match). *)
Definition FindStringSubmatch (r : regexp) (s : string) : option (list string) :=
  search r O s.

End Regexp.

Import Regexp.

Declare Scope regexp_scope.
Infix "⋅" := Cat (at level 50, left associativity) : regexp_scope.
Delimit Scope regexp_scope with re.
Bind Scope regexp_scope with regexp.

(** Package [strconv] of the Go standard library: [Atoi] and, for [%d] and
    [Itoa], the decimal rendering of an [int]. *)
Module Strconv.

Definition digitVal (b : ascii) : Z := Z.of_nat (nat_of_ascii b) - 48.

(** The digit loop of [strconv.ParseUint] in base 10: [n] is the value
    read so far, [maxVal] the largest value of the target width.  The loop
    returns at the first byte that is not a digit (syntax error) or at the
    first digit that takes the value above [maxVal] (range error), without
    looking at the bytes after it. *)
Fixpoint parseUintLoop (maxVal n : Z) (s : string) : Z * option strconvErr :=
  match s with
  | EmptyString => (n, None)
  | String b s' =>
      if isDigit b then
        let n1 := n * 10 + digitVal b in
        if maxVal <? n1 then (maxVal, Some ErrRange)
        else parseUintLoop maxVal n1 s'
      else (0, Some ErrSyntax)
  end.

Definition ParseUint (bitSize : Z) (s : string) : Z * option strconvErr :=
  if s is EmptyString then (0, Some ErrSyntax)
  else parseUintLoop (2 ^ bitSize - 1) 0 s.

(** [strconv.Atoi(s)] on a platform whose [int] has [intSize] bits: an
    optional sign, then [ParseUint] and the signed range check of
    [ParseInt].  (Go's fast path for short strings computes the same
    result.)  The value returned with a range error is the nearest bound,
    with a syntax error it is 0; the [NumError] carries the whole input. *)
Definition Atoi (intSize : Z) (s : string) : Z * option error :=
  match s with
  | EmptyString => (0, Some (NumError "Atoi" s ErrSyntax))
  | String b s' =>
      let neg := Ascii.eqb b "-" in
      let body := if Ascii.eqb b "+" || neg then s' else s in
      let cutoff := 2 ^ (intSize - 1) in
      match ParseUint intSize body with
      | (_, Some ErrSyntax) => (0, Some (NumError "Atoi" s ErrSyntax))
      | (un, _) =>
          if negb neg && (cutoff <=? un) then
            (cutoff - 1, Some (NumError "Atoi" s ErrRange))
          else if neg && (cutoff <? un) then
            (- cutoff, Some (NumError "Atoi" s ErrRange))
          else (if neg then - un else un, None)
      end
  end.

(** [strconv.Itoa(i)], also the verb [%d] of package [fmt]. *)
Definition Itoa (i : Z) : string := NilZero.string_of_int (Z.to_int i).

End Strconv.

(** ** Headers *)

(** [type Headers map[string]string]; [RequestHeaders] and
    [ResponseHeaders] are the same map type under other names. *)
Abbreviation Headers := (gmap string string).
Abbreviation RequestHeaders := (gmap string string).
Abbreviation ResponseHeaders := (gmap string string).

(** [headers[key]]: the zero value for an absent key. *)
Definition get (headers : Headers) (key : string) : string :=
  default "" (headers !! key).

(** The body of the loop of [Headers.String] run over the entries in the
    sequence [order].  Go does not specify the order in which [range] visits
    a map: [order] is any arrangement of the entries ([rangeOrder]). *)
Definition Headers_String_in (order : list (string * string)) : string :=
  foldl (λ headersStr '(key, value),
           headersStr +:+ key +:+ ": " +:+ value +:+ CRLF) "" order.

Definition rangeOrder (headers : Headers) (order : list (string * string)) : Prop :=
  order ≡ₚ map_to_list headers.

(** ** Request and Response *)

Record Request := mkRequest {
  request_Method : Method;
  request_Protocol : Protocol;
  request_Version : string;
  request_Headers : RequestHeaders
}.

Record Response := mkResponse {
  response_Code : Z;
  response_Protocol : Protocol;
  response_Version : string;
  response_Headers : ResponseHeaders
}.

(** [func (response *Response) Message() string] *)
Definition Response_Message (response : Response) : string :=
  if response_Code response =? 200 then "OK" else "".

(** [func (response *Response) Charset() string] *)
Definition Response_Charset (response : Response) : string :=
  get (response_Headers response) "Charset".

(** [func (response *Response) Sender() string] *)
Definition Response_Sender (response : Response) : string :=
  get (response_Headers response) "Sender".

(** [func (response *Response) Value(i int) string] *)
Definition Response_Value (response : Response) (i : Z) : string :=
  get (response_Headers response) "Value".

(** [func (response *Response) Reference(i int) string] *)
Definition Response_Reference (response : Response) (i : Z) : string :=
  get (response_Headers response) ("Reference" +:+ Strconv.Itoa i).

(** [func (request Request) String() string], the headers ranged over in
    [order]. *)
Definition Request_String_in (order : list (string * string))
    (request : Request) : string :=
  Method_String (request_Method request) +:+ " " +:+
  Protocol_String (request_Protocol request) +:+ "/" +:+
  request_Version request +:+ CRLF +:+ Headers_String_in order +:+ CRLF.

(** [func (response Response) String() string], the headers ranged over in
    [order]. *)
Definition Response_String_in (order : list (string * string))
    (response : Response) : string :=
  Protocol_String (response_Protocol response) +:+ "/" +:+
  response_Version response +:+ " " +:+
  Strconv.Itoa (response_Code response) +:+ " " +:+
  Response_Message response +:+ CRLF +:+ Headers_String_in order +:+ CRLF.

(** ** Parsing *)

Local Open Scope regexp_scope.

(** [^(.+) SHIORI/(\d+\.\d+)$] (see [requestLineRe_source]) *)
Definition requestLineRe : regexp :=
  Bol ⋅ Group 1 (Plus Dot) ⋅ Lit " SHIORI/" ⋅
  Group 2 (Plus Digit ⋅ Lit "." ⋅ Plus Digit) ⋅ Eol.

(** [^SHIORI/(\d+\.\d+) (\d+) (.+)$] (see [statusLineRe_source]) *)
Definition statusLineRe : regexp :=
  Bol ⋅ Lit "SHIORI/" ⋅ Group 1 (Plus Digit ⋅ Lit "." ⋅ Plus Digit) ⋅ Lit " " ⋅
  Group 2 (Plus Digit) ⋅ Lit " " ⋅ Group 3 (Plus Dot) ⋅ Eol.

(** The pattern of a header line: a group of one or more bytes other than
    a colon, a colon and a space, a group of zero or more [.], anchored at
    both ends (its source text is in [headerRe_source]). *)
Definition headerRe : regexp :=
  Bol ⋅ Group 1 (Plus (NotChar ":")) ⋅ Lit ": " ⋅ Group 2 (Star Dot) ⋅ Eol.

(** The loop of [ParseHeaderLines]; [headers] is the map built so far. *)
Fixpoint ParseHeaderLines_loop (headers : Headers) (headerLines : list string)
    : option (Headers * option error) :=
  match headerLines with
  | [] => Some (headers, None)
  | line :: headerLines' =>
      if String.eqb line "" then Some (headers, None)
      else
        match FindStringSubmatch headerRe line with
        | None =>
            Some (headers,
                  Some (ParseHeaderError ("header line parse failed: " +:+ line)))
        | Some headerResult =>
            key ← index headerResult 1;
            value ← index headerResult 2;
            ParseHeaderLines_loop (<[key:=value]> headers) headerLines'
        end
  end.

(** [func ParseHeaderLines(headerLines []string) (Headers, error)] *)
Definition ParseHeaderLines (headerLines : list string)
    : option (Headers * option error) :=
  ParseHeaderLines_loop ∅ headerLines.

(** [func ParseRequest(requestStr string) (Request, error)] *)
Definition ParseRequest (requestStr : string) : option (Request * option error) :=
  let request := mkRequest InvalidMethod SHIORI "" ∅ in
  let lines := Strings.Split requestStr CRLF in
  requestLine ← index lines 0;
  headerLines ← slice_from lines 1;
  match FindStringSubmatch requestLineRe requestLine with
  | None =>
      Some (request,
            Some (ParseRequestError ("request line parse failed: " +:+ requestLine)))
  | Some requestLineResult =>
      token ← index requestLineResult 1;
      let '(method, err) := ToMethod token in
      let request := mkRequest method SHIORI "" ∅ in
      if err is Some _ then Some (request, err)
      else
        version ← index requestLineResult 2;
        let request := mkRequest method SHIORI version ∅ in
        '(headers, err) ← ParseHeaderLines headerLines;
        let request := mkRequest method SHIORI version headers in
        Some (request, err)
  end.

(** [func ParseResponse(responseStr string) (Response, error)], on a
    platform whose [int] has [intSize] bits. *)
Definition ParseResponse (intSize : Z) (responseStr : string)
    : option (Response * option error) :=
  let response := mkResponse 0 SHIORI "" ∅ in
  let lines := Strings.Split responseStr CRLF in
  statusLine ← index lines 0;
  headerLines ← slice_from lines 1;
  match FindStringSubmatch statusLineRe statusLine with
  | None =>
      Some (response,
            Some (ParseResponseError ("status line parse failed: " +:+ statusLine)))
  | Some statusLineResult =>
      version ← index statusLineResult 1;
      let response := mkResponse 0 SHIORI version ∅ in
      digits ← index statusLineResult 2;
      let '(code, err) := Strconv.Atoi intSize digits in
      let response := mkResponse code SHIORI version ∅ in
      if err is Some _ then Some (response, err)
      else
        '(headers, err) ← ParseHeaderLines headerLines;
        let response := mkResponse code SHIORI version headers in
        Some (response, err)
  end.

Local Close Scope regexp_scope.

(** ** Declarative reading of the patterns *)

(** [Matches r i c rest caps caps']: at offset [i], with [c +:+ rest] the
    text from [i] on, the pattern [r] can consume exactly [c], turning the
    captures [caps] into [caps'].  This is the set of all ways [r] can match,
    without the priorities of the matcher. *)
Fixpoint Matches (r : regexp) (i : nat) (c rest : string)
    (caps caps' : list string) : Prop :=
  match r with
  | Bol => i = O ∧ c = "" ∧ caps' = caps
  | Eol => rest = "" ∧ c = "" ∧ caps' = caps
  | Lit l => c = l ∧ caps' = caps
  | Star cl => Str.all (cmatch cl) c = true ∧ caps' = caps
  | Plus cl => c ≠ "" ∧ Str.all (cmatch cl) c = true ∧ caps' = caps
  | Cat r1 r2 =>
      ∃ c1 c2 caps1,
        c = c1 +:+ c2 ∧ Matches r1 i c1 (c2 +:+ rest) caps caps1 ∧
        Matches r2 (i + String.length c1) c2 rest caps1 caps'
  | Group n r' => ∃ caps1, Matches r' i c rest caps caps1 ∧ caps' = <[n:=c]> caps1
  end.

(** A pattern that can only match at offset 0. *)
Fixpoint anchored (r : regexp) : bool :=
  match r with
  | Bol => true
  | Cat r1 _ => anchored r1
  | Group _ r' => anchored r'
  | _ => false
  end.

(** The shapes of the three kinds of line, in words of the wire format. *)

Definition digits (s : string) : Prop :=
  s ≠ "" ∧ Str.all isDigit s = true.

Definition noLF (s : string) : Prop :=
  Str.all (λ b, negb (Ascii.eqb b LF)) s = true.

Definition noColon (s : string) : Prop :=
  Str.all (λ b, negb (Ascii.eqb b ":")) s = true.

(** [name: value] with a non-empty name free of colons. *)
Definition headerShape (line name value : string) : Prop :=
  line = name +:+ ": " +:+ value ∧ name ≠ "" ∧ noColon name.

(** [SHIORI/<major>.<minor> <code> <reason>] with a non-empty reason. *)
Definition statusShape (line major minor code reason : string) : Prop :=
  line = "SHIORI/" +:+ major +:+ "." +:+ minor +:+ " " +:+ code +:+ " " +:+ reason ∧
  digits major ∧ digits minor ∧ digits code ∧ reason ≠ "".

(** The number a string of decimal digits denotes ([n] is the value of the
    digits to the left). *)
Fixpoint decimalFrom (n : Z) (s : string) : Z :=
  match s with
  | EmptyString => n
  | String b s' => decimalFrom (n * 10 + Strconv.digitVal b) s'
  end.

Definition decimal (s : string) : Z := decimalFrom 0 s.

(** What [ParseHeaderLines] reads off one line: the two submatches of
    [headerRe] it stores, if the line matches. *)
Definition headerOf (line : string) : option (string * string) :=
  headerResult ← FindStringSubmatch headerRe line;
  key ← index headerResult 1;
  value ← index headerResult 2;
  Some (key, value).

(** A line the loop of [ParseHeaderLines] passes over: not the terminator,
    and matching [headerRe]. *)
Definition headerLine (line : string) : Prop :=
  line ≠ "" ∧ is_Some (headerOf line).

(** The map after the assignments [headers[key] = value], in sequence. *)
Definition insertAll (headers : Headers) (kvs : list (string * string)) : Headers :=
  foldl (λ h kv, <[kv.1:=kv.2]> h) headers kvs.

(** A status line whose reason phrase, [O LF K], holds a bare line feed. *)
Definition statusLine_LF : string := "SHIORI/3.0 200 O" +:+ String LF "K".

(** ** Shapes and methods for the further properties *)

(** [<token> SHIORI/<major>.<minor>] with a non-empty token. *)
Definition requestShape (line token major minor : string) : Prop :=
  line = token +:+ " SHIORI/" +:+ major +:+ "." +:+ minor ∧
  token ≠ "" ∧ digits major ∧ digits minor.

(** [<major>.<minor>], two non-empty runs of digits. *)
Definition versionShape (version : string) : Prop :=
  ∃ major minor, version = major +:+ "." +:+ minor ∧ digits major ∧ digits minor.

(** A header as [Headers.String] can render it and [ParseHeaderLines] read
    it back: a non-empty key without colon and without CRLF, a value
    without line feed. *)
Definition wfHeader (key value : string) : Prop :=
  key ≠ "" ∧ noColon key ∧ Strings.Index key CRLF = None ∧ noLF value.

(** One line of [Headers.String], without its CRLF. *)
Definition headerText (kv : string * string) : string :=
  kv.1 +:+ ": " +:+ kv.2.

(** [func (request *Request) Charset() string] *)
Definition Request_Charset (request : Request) : string :=
  get (request_Headers request) "Charset".

(** [func (request *Request) Sender() string] *)
Definition Request_Sender (request : Request) : string :=
  get (request_Headers request) "Sender".

(** [func (request *Request) Reference(i int) string] *)
Definition Request_Reference (request : Request) (i : Z) : string :=
  get (request_Headers request) ("Reference" +:+ Strconv.Itoa i).

(** The [Error] methods of the four error types of the package. *)
Definition InvalidMethodError_Error (err : string) : string :=
  "InvalidMethodError: " +:+ err.
Definition ParseRequestError_Error (err : string) : string :=
  "ParseRequestError: " +:+ err.
Definition ParseResponseError_Error (err : string) : string :=
  "ParseResponseError: " +:+ err.
Definition ParseHeaderError_Error (err : string) : string :=
  "ParseHeaderError: " +:+ err.

(** * Verification *)

(** ** Strings *)

Section StrFacts.
Implicit Types s t u : string.

Lemma str_app_nil_l s : "" +:+ s = s.
Proof. reflexivity. Qed.

Lemma str_app_cons a s t : String a s +:+ t = String a (s +:+ t).
Proof. reflexivity. Qed.

Lemma str_app_nil_r s : s +:+ "" = s.
Proof. induction s as [|a s IH]; [done|]. by rewrite str_app_cons, IH. Qed.

Lemma str_app_assoc s t u : (s +:+ t) +:+ u = s +:+ t +:+ u.
Proof. induction s as [|a s IH]; [done|]. by rewrite !str_app_cons, IH. Qed.

Lemma str_length_app s t :
  String.length (s +:+ t) = (String.length s + String.length t)%nat.
Proof. induction s as [|a s IH]; [done|]. rewrite str_app_cons. simpl. by rewrite IH. Qed.

Lemma str_app_eq_nil s t : s +:+ t = "" → s = "" ∧ t = "".
Proof. by destruct s. Qed.

Lemma str_prefix_app s t : String.prefix s (s +:+ t) = true.
Proof.
  induction s as [|a s IH]; [by destruct t|].
  rewrite str_app_cons. simpl. by destruct (ascii_dec a a).
Qed.

Lemma str_prefix_inv s t :
  String.prefix s t = true → t = s +:+ Str.drop (String.length s) t.
Proof.
  revert t. induction s as [|a s IH]; intros [|b t]; simpl; try done.
  destruct (ascii_dec a b) as [->|]; [|done].
  intros H. rewrite str_app_cons. f_equal. by apply IH.
Qed.

Lemma str_drop_app s t : Str.drop (String.length s) (s +:+ t) = t.
Proof. induction s as [|a s IH]; [done|]. by rewrite str_app_cons. Qed.

Lemma str_all_app p s t : Str.all p (s +:+ t) = Str.all p s && Str.all p t.
Proof.
  induction s as [|a s IH]; [done|].
  rewrite str_app_cons. simpl. by rewrite IH, andb_assoc.
Qed.

(** A text is cut in one way only at the first byte outside a class. *)
Lemma str_cut_unique p s s' a a' t t' :
  Str.all p s = true → Str.all p s' = true → p a = false → p a' = false →
  s +:+ String a t = s' +:+ String a' t' → s = s' ∧ a = a' ∧ t = t'.
Proof.
  revert s'. induction s as [|b s IH]; intros [|b' s'] Hs Hs' Ha Ha';
    rewrite ?str_app_cons, ?str_app_nil_l; intros Heq; simplify_eq/=.
  - done.
  - apply andb_prop in Hs' as [? _]. congruence.
  - apply andb_prop in Hs as [? _]. congruence.
  - apply andb_prop in Hs as [_ Hs]. apply andb_prop in Hs' as [_ Hs'].
    destruct (IH s' Hs Hs' Ha Ha') as (-> & -> & ->); done.
Qed.
End StrFacts.

(** ** The matcher against the declarative reading *)

Section ExecFacts.
Context {A : Type}.
Implicit Types (k : string → string → option A).

Lemma rep_sound cl s k x :
  rep cl s k = Some x →
  ∃ c rest, s = c +:+ rest ∧ Str.all (cmatch cl) c = true ∧ k c rest = Some x.
Proof.
  revert k. induction s as [|b s IH]; intros k; simpl.
  - intros Hk. by exists "", "".
  - destruct (cmatch cl b) eqn:Hb; [|intros Hk; by exists "", (String b s)].
    destruct (rep cl s _) as [y|] eqn:Hrep.
    + intros [= ->]. apply IH in Hrep as (c & rest & -> & Hc & Hk).
      exists (String b c), rest. simpl. by rewrite Hb, Hc.
    + intros Hk. by exists "", (String b s).
Qed.

Lemma rep_complete cl c rest k :
  Str.all (cmatch cl) c = true → is_Some (k c rest) →
  is_Some (rep cl (c +:+ rest) k).
Proof.
  revert k. induction c as [|b c IH]; intros k Hc Hk.
  - rewrite str_app_nil_l. destruct rest as [|b s]; simpl; [done|].
    destruct (cmatch cl b); [|done]. by destruct (rep cl s _).
  - apply andb_prop in Hc as [Hb Hc]. rewrite str_app_cons. simpl. rewrite Hb.
    destruct (IH (λ c' rest', k (String b c') rest') Hc Hk) as [y ->]. by eexists.
Qed.

Lemma rep1_sound cl s k x :
  rep1 cl s k = Some x →
  ∃ c rest, s = c +:+ rest ∧ c ≠ "" ∧ Str.all (cmatch cl) c = true ∧
            k c rest = Some x.
Proof.
  destruct s as [|b s]; simpl; [done|].
  destruct (cmatch cl b) eqn:Hb; [|done].
  intros (c & rest & -> & Hc & Hk)%rep_sound.
  exists (String b c), rest. simpl. by rewrite Hb, Hc.
Qed.

Lemma rep1_complete cl c rest k :
  c ≠ "" → Str.all (cmatch cl) c = true → is_Some (k c rest) →
  is_Some (rep1 cl (c +:+ rest) k).
Proof.
  destruct c as [|b c]; [done|]. intros _ [Hb Hc]%andb_prop Hk.
  rewrite str_app_cons. simpl. rewrite Hb.
  by apply (rep_complete cl c rest (λ c' rest', k (String b c') rest')).
Qed.
End ExecFacts.

Section MatcherFacts.
Context {A : Type}.
Implicit Types (k : string → string → list string → option A).

(** Whatever the matcher returns comes from one of the ways the pattern
    can match. *)
Lemma exec_sound r i s caps k x :
  exec r i s caps k = Some x →
  ∃ c rest caps', s = c +:+ rest ∧ Matches r i c rest caps caps' ∧
                  k c rest caps' = Some x.
Proof.
  revert i s caps k.
  induction r as [| |l|cl|cl|r1 IH1 r2 IH2|n r IH]; intros i s caps k; simpl.
  - destruct i; [|done]. intros Hk. by exists "", s, caps.
  - destruct s; [|done]. intros Hk. by exists "", "", caps.
  - unfold Strings.HasPrefix. destruct (String.prefix l s) eqn:Hl; [|done].
    intros Hk. exists l, (Str.drop (String.length l) s), caps.
    split; [by apply str_prefix_inv|done].
  - intros (c & rest & -> & Hc & Hk)%rep_sound. by exists c, rest, caps.
  - intros (c & rest & -> & Hne & Hc & Hk)%rep1_sound. by exists c, rest, caps.
  - intros (c1 & s1 & caps1 & -> & H1 & Hk1)%IH1.
    apply IH2 in Hk1 as (c2 & s2 & caps2 & -> & H2 & Hk2).
    exists (c1 +:+ c2), s2, caps2. rewrite str_app_assoc. split_and!; [done| |done].
    by exists c1, c2, caps1.
  - intros (c & rest & caps1 & -> & H1 & Hk)%IH.
    exists c, rest, (<[n:=c]> caps1). split_and!; [done| |done]. by exists caps1.
Qed.

(** If the pattern can match in a way the continuation accepts, the
    matcher finds a match (that way or one of higher priority). *)
Lemma exec_complete r i c rest caps caps' k :
  Matches r i c rest caps caps' → is_Some (k c rest caps') →
  is_Some (exec r i (c +:+ rest) caps k).
Proof.
  revert i c rest caps caps' k.
  induction r as [| |l|cl|cl|r1 IH1 r2 IH2|n r IH];
    intros i c rest caps caps' k; simpl.
  - by intros (-> & -> & ->).
  - by intros (-> & -> & ->).
  - intros (-> & ->) Hk. unfold Strings.HasPrefix.
    by rewrite str_prefix_app, str_drop_app.
  - intros (Hc & ->) Hk. by apply rep_complete.
  - intros (Hne & Hc & ->) Hk. by apply rep1_complete.
  - intros (c1 & c2 & caps1 & -> & H1 & H2) Hk. rewrite str_app_assoc.
    eapply IH1; [done|]. by eapply IH2.
  - intros (caps1 & H1 & ->) Hk. by eapply IH.
Qed.

Lemma exec_anchored r i s caps k :
  anchored r = true → exec r (S i) s caps k = None.
Proof.
  revert i s caps k.
  induction r as [| |l|cl|cl|r1 IH1 r2 IH2|n r IH]; intros i s caps k; simpl;
    try done.
  - intros Hr. by apply IH1.
  - intros Hr. by apply IH.
Qed.
End MatcherFacts.

Lemma Matches_length r i c rest caps caps' :
  Matches r i c rest caps caps' → length caps' = length caps.
Proof.
  revert i c rest caps caps'.
  induction r as [| |l|cl|cl|r1 IH1 r2 IH2|n r IH]; intros i c rest caps caps';
    simpl; try (intros H; destruct_and!; by subst).
  - intros (c1 & c2 & caps1 & -> & H1%IH1 & H2%IH2). congruence.
  - intros (caps1 & H1%IH & ->). by rewrite length_insert.
Qed.

Lemma matchAt_sound r i s m :
  matchAt r i s = Some m →
  ∃ c rest caps', s = c +:+ rest ∧
    Matches r i c rest (replicate (S (NumSubexp r)) "") caps' ∧
    m = <[O:=c]> caps'.
Proof.
  unfold matchAt. intros (c & rest & caps' & -> & Hm & [= <-])%exec_sound.
  by exists c, rest, caps'.
Qed.

Lemma matchAt_complete r i c rest caps' :
  Matches r i c rest (replicate (S (NumSubexp r)) "") caps' →
  is_Some (matchAt r i (c +:+ rest)).
Proof. intros Hm. unfold matchAt. by eapply exec_complete. Qed.

Lemma search_anchored r i s : anchored r = true → search r (S i) s = None.
Proof.
  intros Hr. revert i. induction s as [|b s IH]; intros i; simpl;
    unfold matchAt; rewrite exec_anchored by done; [done|apply IH].
Qed.

(** An anchored pattern is only tried at the beginning of the text. *)
Lemma FindStringSubmatch_anchored r s :
  anchored r = true → FindStringSubmatch r s = matchAt r O s.
Proof.
  intros Hr. unfold FindStringSubmatch.
  destruct s as [|b s]; simpl; destruct (matchAt r O _); try done.
  by apply search_anchored.
Qed.

(** The slice of submatches has one element per group, plus one. *)
Lemma FindStringSubmatch_length r s m :
  FindStringSubmatch r s = Some m → length m = S (NumSubexp r).
Proof.
  unfold FindStringSubmatch. generalize O. induction s as [|b s IH]; intros i; simpl.
  - destruct (matchAt r i "") as [m'|] eqn:Hm; [|done]. intros [= ->].
    apply matchAt_sound in Hm as (c & rest & caps' & _ & Hlen%Matches_length & ->).
    by rewrite length_insert, Hlen, length_replicate.
  - destruct (matchAt r i (String b s)) as [m'|] eqn:Hm; [|apply IH]. intros [= ->].
    apply matchAt_sound in Hm as (c & rest & caps' & _ & Hlen%Matches_length & ->).
    by rewrite length_insert, Hlen, length_replicate.
Qed.

(** ** The three patterns of the package *)

(** The three definitions are what the source texts of the patterns
    compile to. *)
Lemma requestLineRe_source :
  Regexp.Compile "^(.+) SHIORI/(\d+\.\d+)$" = Some requestLineRe.
Proof. reflexivity. Qed.

Lemma statusLineRe_source :
  Regexp.Compile "^SHIORI/(\d+\.\d+) (\d+) (.+)$" = Some statusLineRe.
Proof. reflexivity. Qed.

Lemma headerRe_source :
  Regexp.Compile "^([^:]+): (.*)$" = Some headerRe.
Proof. reflexivity. Qed.

Ltac break_matches :=
  repeat match goal with
         | H : ∃ _, _ |- _ => destruct H
         | H : _ ∧ _ |- _ => destruct H
         end; subst.

Ltac norm_app := rewrite ?str_app_nil_l, ?str_app_nil_r, ?str_app_assoc, ?str_app_cons.

Lemma headerRe_sound line m :
  FindStringSubmatch headerRe line = Some m →
  ∃ name value, headerShape line name value ∧ noLF value ∧ m = [line; name; value].
Proof.
  rewrite FindStringSubmatch_anchored by done.
  intros (c & rest & caps' & -> & HM & ->)%matchAt_sound.
  unfold headerRe in HM. simpl in HM. break_matches.
  match goal with
  | |- context [<[2%nat:=?v]> (<[1%nat:=?n]> _)] => exists n, v
  end.
  unfold headerShape. split_and!; try done; simpl; by norm_app.
Qed.

Lemma headerRe_complete line name value :
  headerShape line name value → noLF value →
  FindStringSubmatch headerRe line = Some [line; name; value].
Proof.
  intros (-> & Hne & Hname) Hvalue.
  assert (is_Some (FindStringSubmatch headerRe (name +:+ ": " +:+ value))) as [m Hm].
  { rewrite FindStringSubmatch_anchored by done.
    replace (name +:+ ": " +:+ value)
      with ((((("" +:+ name) +:+ ": ") +:+ value) +:+ "") +:+ "") by by norm_app.
    eapply matchAt_complete. unfold headerRe. simpl.
    repeat first [done | eexists | split]. }
  rewrite Hm. apply headerRe_sound in Hm as (name' & value' & (Heq & _ & Hname') & _ & ->).
  revert Heq. norm_app. intros Heq.
  apply (str_cut_unique (λ b, negb (Ascii.eqb b ":"))) in Heq as (Hn & _ & Hv);
    [by simplify_eq|done..].
Qed.

Lemma statusLineRe_sound line m :
  FindStringSubmatch statusLineRe line = Some m →
  ∃ major minor code reason,
    statusShape line major minor code reason ∧ noLF reason ∧
    m = [line; major +:+ "." +:+ minor; code; reason].
Proof.
  rewrite FindStringSubmatch_anchored by done.
  intros (c & rest & caps' & -> & HM & ->)%matchAt_sound.
  unfold statusLineRe in HM. simpl in HM. break_matches.
  match goal with
  | |- context [<[3%nat:=?r]> (<[2%nat:=?c]> (<[1%nat:=(?a +:+ ".") +:+ ?b]> _))] =>
      exists a, b, c, r
  end.
  unfold statusShape, digits. split_and!; try done; simpl; by norm_app.
Qed.

Lemma statusShape_unique line major minor code reason major' minor' code' reason' :
  statusShape line major minor code reason →
  statusShape line major' minor' code' reason' →
  major' = major ∧ minor' = minor ∧ code' = code ∧ reason' = reason.
Proof.
  intros (-> & [_ H1] & [_ H2] & [_ H3] & _) (Heq & [_ H1'] & [_ H2'] & [_ H3'] & _).
  revert Heq. norm_app. intros [= Heq].
  apply (str_cut_unique isDigit) in Heq as (-> & _ & Heq); [|done..].
  apply (str_cut_unique isDigit) in Heq as (-> & _ & Heq); [|done..].
  apply (str_cut_unique isDigit) in Heq as (-> & _ & Heq); [|done..].
  done.
Qed.

Lemma statusLineRe_complete line major minor code reason :
  statusShape line major minor code reason → noLF reason →
  FindStringSubmatch statusLineRe line =
    Some [line; major +:+ "." +:+ minor; code; reason].
Proof.
  intros Hshape Hreason.
  assert (is_Some (FindStringSubmatch statusLineRe line)) as [m Hm].
  { destruct Hshape as (-> & [? ?] & [? ?] & [? ?] & ?).
    rewrite FindStringSubmatch_anchored by done.
    match goal with |- is_Some (matchAt _ _ ?l) =>
      replace l with
        (((((((("" +:+ "SHIORI/") +:+ (major +:+ ".") +:+ minor) +:+ " ") +:+ code)
             +:+ " ") +:+ reason) +:+ "") +:+ "") by by norm_app
    end.
    eapply matchAt_complete. unfold statusLineRe. simpl.
    repeat first [done | eexists | split]. }
  rewrite Hm.
  apply statusLineRe_sound in Hm as (major' & minor' & code' & reason' & Hshape' & _ & ->).
  by destruct (statusShape_unique _ _ _ _ _ _ _ _ _ Hshape Hshape') as (-> & -> & -> & ->).
Qed.

(** ** ParseHeaderLines *)

Lemma headerOf_Some line key value :
  headerOf line = Some (key, value) ↔ headerShape line key value ∧ noLF value.
Proof.
  unfold headerOf. split.
  - destruct (FindStringSubmatch headerRe line) as [m|] eqn:Hm; [|done].
    apply headerRe_sound in Hm as (name & v & Hshape & Hv & ->).
    simpl. by intros [= <- <-].
  - intros [Hshape Hv]. by rewrite (headerRe_complete _ key value).
Qed.

Lemma headerOf_None line :
  headerOf line = None ↔ FindStringSubmatch headerRe line = None.
Proof.
  unfold headerOf. split; [|by intros ->].
  destruct (FindStringSubmatch headerRe line) as [m|] eqn:Hm; [|done].
  by apply headerRe_sound in Hm as (name & v & _ & _ & ->).
Qed.

Lemma ParseHeaderLines_loop_step headers line key value headerLines :
  line ≠ "" → headerOf line = Some (key, value) →
  ParseHeaderLines_loop headers (line :: headerLines) =
  ParseHeaderLines_loop (<[key:=value]> headers) headerLines.
Proof.
  intros Hne Hkv. simpl. destruct (String.eqb_spec line ""); [done|].
  unfold headerOf in Hkv.
  destruct (FindStringSubmatch headerRe line) as [m|]; [|done]. simpl in Hkv.
  destruct (index m 1) as [k|]; [|done]. destruct (index m 2) as [v|]; [|done].
  by simplify_eq/=.
Qed.

Lemma ParseHeaderLines_loop_total headers headerLines :
  is_Some (ParseHeaderLines_loop headers headerLines).
Proof.
  revert headers. induction headerLines as [|line ls IH]; intros h; simpl; [done|].
  destruct (String.eqb line ""); [done|].
  destruct (FindStringSubmatch headerRe line) as [m|] eqn:Hm; [|done].
  apply FindStringSubmatch_length in Hm. destruct m as [|m0 [|m1 [|m2 m]]]; try done.
  simpl. apply IH.
Qed.

Lemma ParseHeaderLines_loop_stop headers pre post :
  ParseHeaderLines_loop headers (pre ++ "" :: post) =
  ParseHeaderLines_loop headers pre.
Proof.
  revert headers. induction pre as [|line ls IH]; intros h; simpl; [done|].
  destruct (String.eqb line ""); [done|].
  destruct (FindStringSubmatch headerRe line) as [m|]; [|done].
  destruct (index m 1) as [key|]; [|done]. destruct (index m 2) as [value|]; [|done].
  simpl. apply IH.
Qed.

Lemma ParseHeaderLines_loop_headerLines headers headerLines :
  Forall headerLine headerLines →
  ParseHeaderLines_loop headers headerLines =
    Some (insertAll headers (omap headerOf headerLines), None).
Proof.
  intros Hls. revert headers.
  induction Hls as [|line ls [Hne [[k v] Hkv]] _ IH]; intros h; [done|].
  rewrite (ParseHeaderLines_loop_step _ _ k v) by done.
  rewrite IH. simpl. by rewrite Hkv.
Qed.

Lemma ParseHeaderLines_loop_reject headers pre line post :
  Forall headerLine pre → line ≠ "" → headerOf line = None →
  ParseHeaderLines_loop headers (pre ++ line :: post) =
    Some (insertAll headers (omap headerOf pre),
          Some (ParseHeaderError ("header line parse failed: " +:+ line))).
Proof.
  intros Hpre Hne Hno. revert headers.
  induction Hpre as [|l pre [Hl [[k v] Hkv]] _ IH]; intros h.
  - simpl. destruct (String.eqb_spec line ""); [done|].
    apply headerOf_None in Hno. by rewrite Hno.
  - rewrite <-app_comm_cons, (ParseHeaderLines_loop_step _ _ k v) by done.
    rewrite IH. simpl. by rewrite Hkv.
Qed.

Lemma insertAll_app headers kvs1 kvs2 :
  insertAll headers (kvs1 ++ kvs2) = insertAll (insertAll headers kvs1) kvs2.
Proof. apply foldl_app. Qed.

Lemma insertAll_absent headers kvs key :
  key ∉ kvs.*1 → insertAll headers kvs !! key = headers !! key.
Proof.
  revert headers. induction kvs as [|[k v] kvs IH]; intros h Hk; simpl; [done|].
  apply not_elem_of_cons in Hk as [Hne Hk]. rewrite IH by done.
  by rewrite lookup_insert_ne.
Qed.

Lemma insertAll_last headers kvs1 kvs2 key value :
  key ∉ kvs2.*1 →
  insertAll headers (kvs1 ++ (key, value) :: kvs2) !! key = Some value.
Proof.
  intros Hk. rewrite insertAll_app. simpl.
  rewrite insertAll_absent by done. apply lookup_insert_eq.
Qed.

(** ** strings.Split *)

Lemma str_length_drop n s :
  String.length (Str.drop n s) = (String.length s - n)%nat.
Proof. revert s. induction n as [|n IH]; intros [|a s]; simpl; auto. Qed.

Lemma Index_nil sep : sep ≠ "" → Strings.Index "" sep = None.
Proof. by destruct sep. Qed.

Lemma genSplit_enough sep n n' s :
  sep ≠ "" → (String.length s ≤ n)%nat → (String.length s ≤ n')%nat →
  Strings.genSplit n s sep = Strings.genSplit n' s sep.
Proof.
  intros Hsep. revert n' s. induction n as [|n IH]; intros [|n'] s Hn Hn'; [done|..].
  - destruct s; [|simpl in Hn; lia]. cbn [Strings.genSplit]. by rewrite Index_nil.
  - destruct s; [|simpl in Hn'; lia]. cbn [Strings.genSplit]. by rewrite Index_nil.
  - cbn [Strings.genSplit]. destruct (Strings.Index s sep) as [m|]; [|done]. f_equal.
    assert (0 < String.length sep)%nat by (destruct sep; [done|simpl; lia]).
    apply IH; rewrite str_length_drop; lia.
Qed.

(** The bound in [Split] is never reached: [Split] cuts at every separator. *)
Lemma Split_unfold s sep :
  sep ≠ "" →
  Strings.Split s sep =
    match Strings.Index s sep with
    | None => [s]
    | Some m =>
        Str.take m s :: Strings.Split (Str.drop (m + String.length sep) s) sep
    end.
Proof.
  intros Hsep. unfold Strings.Split.
  destruct s as [|a s]; [by rewrite (Index_nil sep)|].
  cbn [String.length Strings.genSplit].
  destruct (Strings.Index _ sep) as [m|]; [|done]. f_equal.
  assert (0 < String.length sep)%nat by (destruct sep; [done|simpl; lia]).
  apply genSplit_enough; [done|..|done].
  rewrite str_length_drop. simpl. lia.
Qed.

Lemma Split_cons s sep :
  ∃ line lines, Strings.Split s sep = line :: lines.
Proof.
  unfold Strings.Split. destruct (String.length s); simpl; [by eexists _, _|].
  destruct (Strings.Index s sep); by eexists _, _.
Qed.

(** ** strconv.Atoi *)

Lemma digitVal_range b : isDigit b = true → 0 ≤ Strconv.digitVal b ≤ 9.
Proof.
  unfold isDigit, Strconv.digitVal. intros [H1 H2]%andb_prop.
  apply Nat.leb_le in H1, H2. lia.
Qed.

Lemma isDigit_not_sign b :
  isDigit b = true → Ascii.eqb b "+" = false ∧ Ascii.eqb b "-" = false.
Proof.
  intros Hb. split; apply Ascii.eqb_neq; intros ->; discriminate Hb.
Qed.

Lemma decimalFrom_ge n s :
  0 ≤ n → Str.all isDigit s = true → n ≤ decimalFrom n s.
Proof.
  revert n. induction s as [|b s IH]; intros n Hn Hs; simpl; [lia|].
  apply andb_prop in Hs as [Hb%digitVal_range Hs].
  etrans; [|apply IH; [lia|done]]. lia.
Qed.

Lemma parseUintLoop_digits maxVal n s :
  0 ≤ n ≤ maxVal → Str.all isDigit s = true →
  Strconv.parseUintLoop maxVal n s =
    if decimalFrom n s <=? maxVal then (decimalFrom n s, None)
    else (maxVal, Some ErrRange).
Proof.
  revert n. induction s as [|b s IH]; intros n Hn Hs; simpl.
  - destruct (Z.leb_spec n maxVal); [done|lia].
  - apply andb_prop in Hs as [Hb Hs]. rewrite Hb.
    pose proof (digitVal_range b Hb).
    destruct (Z.ltb_spec maxVal (n * 10 + Strconv.digitVal b)) as [Hlt|Hle].
    + assert (n * 10 + Strconv.digitVal b ≤
              decimalFrom (n * 10 + Strconv.digitVal b) s)
        by (apply decimalFrom_ge; [lia|done]).
      destruct (Z.leb_spec (decimalFrom (n * 10 + Strconv.digitVal b) s) maxVal);
        [lia|done].
    + apply IH; [lia|done].
Qed.

(** On a string of digits, [Atoi] is the decimal value, or the range error
    with the largest [int]. *)
Lemma Atoi_digits intSize s :
  0 < intSize → digits s →
  Strconv.Atoi intSize s =
    if decimal s <? 2 ^ (intSize - 1) then (decimal s, None)
    else (2 ^ (intSize - 1) - 1, Some (NumError "Atoi" s ErrRange)).
Proof.
  intros Hsize [Hne Hs]. destruct s as [|b s]; [done|]. clear Hne.
  pose proof Hs as [Hb _]%andb_prop.
  destruct (isDigit_not_sign b Hb) as [Hplus Hminus].
  assert (2 ^ intSize = 2 * 2 ^ (intSize - 1)) as Hpow.
  { rewrite <-Z.pow_succ_r by lia. f_equal. lia. }
  assert (0 < 2 ^ (intSize - 1)) by (apply Z.pow_pos_nonneg; lia).
  unfold Strconv.Atoi, Strconv.ParseUint. rewrite Hplus, Hminus.
  cbn [orb negb andb].
  rewrite parseUintLoop_digits by (done || lia).
  fold (decimal (String b s)).
  destruct (Z.leb_spec (decimal (String b s)) (2 ^ intSize - 1));
    destruct (Z.ltb_spec (decimal (String b s)) (2 ^ (intSize - 1)));
    destruct (Z.leb_spec (2 ^ (intSize - 1)) (decimal (String b s)));
    destruct (Z.leb_spec (2 ^ (intSize - 1)) (2 ^ intSize - 1));
    try done; lia.
Qed.

(** ** ParseRequest and ParseResponse *)

Lemma index_submatch r s m i :
  FindStringSubmatch r s = Some m → (i ≤ NumSubexp r)%nat → is_Some (index m i).
Proof.
  intros Hlen%FindStringSubmatch_length Hi. apply lookup_lt_is_Some. lia.
Qed.

Lemma slice_from_tail {A} (x : A) l : slice_from (x :: l) 1 = Some l.
Proof. unfold slice_from. case_decide; [done|]. simpl in *. lia. Qed.

Lemma ParseRequest_total requestStr : is_Some (ParseRequest requestStr).
Proof.
  unfold ParseRequest.
  destruct (Split_cons requestStr CRLF) as (line & lines & ->).
  rewrite slice_from_tail. simpl.
  destruct (FindStringSubmatch requestLineRe line) as [m|] eqn:Hm; [|done].
  destruct (index_submatch _ _ _ 1 Hm) as [token ->]; [simpl; lia|].
  destruct (index_submatch _ _ _ 2 Hm) as [version ->]; [simpl; lia|].
  simpl. destruct (ToMethod token) as [method [e|]]; [done|]. simpl.
  unfold ParseHeaderLines.
  destruct (ParseHeaderLines_loop_total ∅ lines) as [[h e] ->]. done.
Qed.

Lemma ParseResponse_total intSize responseStr :
  is_Some (ParseResponse intSize responseStr).
Proof.
  unfold ParseResponse.
  destruct (Split_cons responseStr CRLF) as (line & lines & ->).
  rewrite slice_from_tail. simpl.
  destruct (FindStringSubmatch statusLineRe line) as [m|] eqn:Hm; [|done].
  destruct (index_submatch _ _ _ 1 Hm) as [version ->]; [simpl; lia|].
  destruct (index_submatch _ _ _ 2 Hm) as [code ->]; [simpl; lia|].
  simpl. destruct (Strconv.Atoi intSize code) as [n [e|]]; [done|]. simpl.
  unfold ParseHeaderLines.
  destruct (ParseHeaderLines_loop_total ∅ lines) as [[h e] ->]. done.
Qed.

(** ** Scenarios of the package's documentation *)

Example ParseRequest_NOTIFY :
  ParseRequest ("NOTIFY SHIORI/3.0" +:+ CRLF +:+ CRLF) =
    Some (mkRequest NOTIFY SHIORI "3.0" ∅, None).
Proof. vm_compute. reflexivity. Qed.

Example ParseRequest_FOO :
  ParseRequest ("FOO SHIORI/1.0" +:+ CRLF +:+ CRLF) =
    Some (mkRequest InvalidMethod SHIORI "" ∅, Some (InvalidMethodError "FOO")).
Proof. vm_compute. reflexivity. Qed.

Example ParseRequest_no_CRLF :
  ParseRequest "GET" =
    Some (mkRequest InvalidMethod SHIORI "" ∅,
          Some (ParseRequestError "request line parse failed: GET")).
Proof. vm_compute. reflexivity. Qed.

Example ParseRequest_bad_header :
  ParseRequest ("GET SHIORI/3.0" +:+ CRLF +:+ "Sender: A" +:+ CRLF +:+
                "BadLineNoColon" +:+ CRLF +:+ CRLF) =
    Some (mkRequest GET SHIORI "3.0" {["Sender" := "A"]},
          Some (ParseHeaderError "header line parse failed: BadLineNoColon")).
Proof. vm_compute. reflexivity. Qed.

Example ParseResponse_200 :
  ParseResponse 64 ("SHIORI/3.0 200 OK" +:+ CRLF +:+ "Sender: A" +:+ CRLF +:+ CRLF) =
    Some (mkResponse 200 SHIORI "3.0" {["Sender" := "A"]}, None).
Proof. vm_compute. reflexivity. Qed.

Example ParseResponse_empty_reason :
  ParseResponse 64 ("SHIORI/3.0 200 " +:+ CRLF +:+ CRLF) =
    Some (mkResponse 0 SHIORI "" ∅,
          Some (ParseResponseError "status line parse failed: SHIORI/3.0 200 ")).
Proof. vm_compute. reflexivity. Qed.

(** A map with one entry is ranged over in one way: the Response of the
    scenario above is rendered as the text it was parsed from. *)
Example Response_String_200 order :
  rangeOrder {["Sender" := "A"]} order →
  Response_String_in order (mkResponse 200 SHIORI "3.0" {["Sender" := "A"]}) =
    "SHIORI/3.0 200 OK" +:+ CRLF +:+ "Sender: A" +:+ CRLF +:+ CRLF.
Proof.
  unfold rangeOrder. rewrite map_to_list_singleton.
  intros ->%Permutation_singleton_r. reflexivity.
Qed.

(** * The claims *)

(** C1. For the input [GET SHIORI/2.6 CRLF Sender: test CRLF CRLF],
    [ParseRequest] returns, with a nil error, the Request whose Method is
    [GET], Protocol is [SHIORI], Version is the string [2.6] and Headers is
    the one-entry map from [Sender] to [test]. *)
Theorem ParseRequest_GET_scenario :
  ParseRequest ("GET SHIORI/2.6" +:+ CRLF +:+ "Sender: test" +:+ CRLF +:+ CRLF) =
    Some (mkRequest GET SHIORI "2.6" {["Sender" := "test"]}, None).
Proof. vm_compute. reflexivity. Qed.

(** C2. [ToMethod] succeeds exactly on the tokens [GET] and [NOTIFY]; on
    success [Method_String] gives the token back; on every other string,
    the empty one and [get] in lower case included, it fails with the
    [InvalidMethodError] that carries the token. *)
Theorem ToMethod_spec (method : string) :
  ((ToMethod method).2 = None ↔ method = "GET" ∨ method = "NOTIFY") ∧
  ((ToMethod method).2 = None → Method_String (ToMethod method).1 = method) ∧
  (method ≠ "GET" → method ≠ "NOTIFY" →
   ToMethod method = (InvalidMethod, Some (InvalidMethodError method))) ∧
  ToMethod "GET" = (GET, None) ∧ ToMethod "NOTIFY" = (NOTIFY, None) ∧
  ToMethod "" = (InvalidMethod, Some (InvalidMethodError "")) ∧
  ToMethod "get" = (InvalidMethod, Some (InvalidMethodError "get")).
Proof.
  unfold ToMethod.
  destruct (String.eqb_spec method "GET") as [->|Hget];
    [|destruct (String.eqb_spec method "NOTIFY") as [->|Hnotify]];
    simpl; split_and!; try done; intuition congruence.
Qed.

Lemma ToMethod_spec_witness :
  Method_String (ToMethod "NOTIFY").1 = "NOTIFY" ∧
  ToMethod "FOO" = (InvalidMethod, Some (InvalidMethodError "FOO")).
Proof.
  split.
  - apply (ToMethod_spec "NOTIFY"). reflexivity.
  - apply (ToMethod_spec "FOO"); discriminate.
Defined.

(** The value [insertAll] leaves under a key is that of the last assignment
    to the key. *)
Lemma insertAll_lookup kvs key :
  insertAll ∅ kvs !! key = last (filter (λ kv, kv.1 = key) kvs).*2.
Proof.
  induction kvs as [|[k v] kvs IH] using rev_ind; [done|].
  rewrite insertAll_app, filter_app, fmap_app. simpl.
  destruct (decide (k = key)) as [->|Hne].
  - rewrite lookup_insert_eq, filter_cons_True by done. simpl. by rewrite last_snoc.
  - rewrite lookup_insert_ne, filter_cons_False by done. simpl.
    by rewrite app_nil_r.
Qed.

Lemma headerShape_colon line name value :
  headerShape line name value → noColon line → False.
Proof.
  intros (-> & _ & _). unfold noColon. rewrite str_all_app, str_app_cons. simpl.
  by rewrite andb_false_r.
Qed.

(** C3. [ParseHeaderLines] stops at the first empty line: the lines after it
    are never looked at, so the result is that of the lines before it; when
    these are header lines, the result is their headers and no error; when
    the first line is empty, it is the empty map and no error. *)
Theorem ParseHeaderLines_stops_at_empty_line (pre post : list string) :
  ParseHeaderLines (pre ++ "" :: post) = ParseHeaderLines pre ∧
  (Forall headerLine pre →
   ParseHeaderLines (pre ++ "" :: post) =
     Some (insertAll ∅ (omap headerOf pre), None)) ∧
  ParseHeaderLines ("" :: post) = Some (∅, None).
Proof.
  unfold ParseHeaderLines. split_and!; [|intros Hpre|done].
  - apply ParseHeaderLines_loop_stop.
  - rewrite ParseHeaderLines_loop_stop. by apply ParseHeaderLines_loop_headerLines.
Qed.

Lemma ParseHeaderLines_stops_at_empty_line_witness :
  ParseHeaderLines (["Sender: test"] ++ "" :: ["BadLineNoColon"]) =
    Some ({["Sender" := "test"]}, None).
Proof.
  etrans.
  - apply (ParseHeaderLines_stops_at_empty_line ["Sender: test"] ["BadLineNoColon"]).
    repeat constructor; [discriminate|vm_compute; eauto].
  - vm_compute. reflexivity.
Defined.

(** C4. When [ParseHeaderLines] reaches a non-empty line that is not of the
    form [name: value] (a non-empty name without colon, a colon and a space,
    any value), it returns the [ParseHeaderError] that carries this line,
    together with the headers of the lines before it. *)
Theorem ParseHeaderLines_rejects_malformed (pre post : list string) (line : string) :
  Forall headerLine pre → line ≠ "" →
  (∀ name value, ¬ headerShape line name value) →
  ParseHeaderLines (pre ++ line :: post) =
    Some (insertAll ∅ (omap headerOf pre),
          Some (ParseHeaderError ("header line parse failed: " +:+ line))) ∧
  ParseHeaderLines pre = Some (insertAll ∅ (omap headerOf pre), None).
Proof.
  intros Hpre Hne Hshape. unfold ParseHeaderLines. split.
  - apply ParseHeaderLines_loop_reject; [done..|].
    destruct (headerOf line) as [[k v]|] eqn:Hkv; [|done].
    apply headerOf_Some in Hkv as [Hkv _]. by apply Hshape in Hkv.
  - by apply ParseHeaderLines_loop_headerLines.
Qed.

Lemma ParseHeaderLines_rejects_malformed_witness :
  ParseHeaderLines (["Sender: test"] ++ "BadLineNoColon" :: ["Charset: UTF-8"; ""]) =
    Some ({["Sender" := "test"]},
          Some (ParseHeaderError "header line parse failed: BadLineNoColon")).
Proof.
  etrans.
  - apply (ParseHeaderLines_rejects_malformed
             ["Sender: test"] ["Charset: UTF-8"; ""] "BadLineNoColon").
    + repeat constructor; [discriminate|vm_compute; eauto].
    + discriminate.
    + intros name value Hshape. by apply headerShape_colon in Hshape.
  - vm_compute. reflexivity.
Defined.

(** C5. A header name on several lines keeps the value of the last of them:
    the map [ParseHeaderLines] returns for a block of header lines binds
    every name to the value of the last line with that name before the
    terminator (and no other name).  The lines of [A: 1 CRLF A: 2 CRLF CRLF]
    give the one-entry map from [A] to [2]. *)
Theorem ParseHeaderLines_last_wins :
  (∀ block post : list string,
     Forall headerLine block →
     ∃ headers : Headers,
       ParseHeaderLines (block ++ "" :: post) = Some (headers, None) ∧
       ∀ key, headers !! key =
              last (filter (λ kv, kv.1 = key) (omap headerOf block)).*2) ∧
  ParseHeaderLines
    (Strings.Split ("A: 1" +:+ CRLF +:+ "A: 2" +:+ CRLF +:+ CRLF) CRLF) =
    Some ({["A" := "2"]}, None).
Proof.
  split; [|by vm_compute].
  intros block post Hblock. eexists. split.
  - unfold ParseHeaderLines. rewrite ParseHeaderLines_loop_stop.
    by apply ParseHeaderLines_loop_headerLines.
  - apply insertAll_lookup.
Qed.

Lemma ParseHeaderLines_last_wins_witness :
  ∃ headers : Headers,
    ParseHeaderLines (["A: 1"; "B: x"; "A: 2"] ++ "" :: ["A: 3"]) =
      Some (headers, None) ∧
    headers !! "A" = Some "2".
Proof.
  destruct (proj1 ParseHeaderLines_last_wins ["A: 1"; "B: x"; "A: 2"] ["A: 3"])
    as (headers & Hparse & Hlookup).
  - repeat constructor; try discriminate; vm_compute; eauto.
  - exists headers. split; [done|]. rewrite Hlookup. vm_compute. reflexivity.
Defined.

(** C6, as the claim states it, fails on a reason phrase with a line feed in
    it: the line is line 0 of the input and has the shape
    [SHIORI/<version> <code> <reason>] with a reason of three characters,
    but [statusLineRe] does not match it and [ParseResponse] returns a
    [ParseResponseError]. *)
Lemma ParseResponse_rejects_LF_in_reason :
  Strings.Split (statusLine_LF +:+ CRLF +:+ CRLF) CRLF = [statusLine_LF; ""; ""] ∧
  statusShape statusLine_LF "3" "0" "200" ("O" +:+ String LF "K") ∧
  FindStringSubmatch statusLineRe statusLine_LF = None ∧
  ParseResponse 64 (statusLine_LF +:+ CRLF +:+ CRLF) =
    Some (mkResponse 0 SHIORI "" ∅,
          Some (ParseResponseError ("status line parse failed: " +:+ statusLine_LF))).
Proof.
  split_and!; [by vm_compute| |by vm_compute..].
  unfold statusShape, digits. split_and!; by vm_compute.
Qed.

(** C6, amended.  Let [statusLine] be line 0 of the input split at CRLF.
    [statusLineRe] matches it exactly when it is
    [SHIORI/<major>.<minor> <code> <reason>] with three non-empty runs of
    digits and a non-empty reason phrase without line feed.  Without a
    match [ParseResponse] returns the [ParseResponseError] that carries the
    line.  With a match the result does not depend on the reason phrase:
    when the code fits in an [int] it is the Response with that Code, the
    version and the parsed headers, together with the error of the header
    block; when it does not fit, it is the range error of [Atoi]. *)
Theorem ParseResponse_status_line (intSize : Z) (responseStr statusLine : string)
    (headerLines : list string) :
  0 < intSize →
  Strings.Split responseStr CRLF = statusLine :: headerLines →
  (is_Some (FindStringSubmatch statusLineRe statusLine) ↔
   ∃ major minor code reason,
     statusShape statusLine major minor code reason ∧ noLF reason) ∧
  (FindStringSubmatch statusLineRe statusLine = None →
   ParseResponse intSize responseStr =
     Some (mkResponse 0 SHIORI "" ∅,
           Some (ParseResponseError ("status line parse failed: " +:+ statusLine)))) ∧
  (∀ major minor code reason,
     statusShape statusLine major minor code reason → noLF reason →
     ParseResponse intSize responseStr =
       if decimal code <? 2 ^ (intSize - 1) then
         '(headers, err) ← ParseHeaderLines headerLines;
         Some (mkResponse (decimal code) SHIORI (major +:+ "." +:+ minor) headers, err)
       else
         Some (mkResponse (2 ^ (intSize - 1) - 1) SHIORI (major +:+ "." +:+ minor) ∅,
               Some (NumError "Atoi" code ErrRange))).
Proof.
  intros Hsize Hsplit. split_and!.
  - split.
    + intros [m Hm]. apply statusLineRe_sound in Hm
        as (major & minor & code & reason & Hshape & Hreason & _).
      by exists major, minor, code, reason.
    + intros (major & minor & code & reason & Hshape & Hreason).
      by rewrite (statusLineRe_complete _ major minor code reason).
  - intros Hno. unfold ParseResponse. rewrite Hsplit, slice_from_tail. simpl.
    by rewrite Hno.
  - intros major minor code reason Hshape Hreason.
    unfold ParseResponse. rewrite Hsplit, slice_from_tail. simpl.
    rewrite (statusLineRe_complete _ major minor code reason) by done. simpl.
    rewrite Atoi_digits by (done || apply Hshape).
    by destruct (decimal code <? 2 ^ (intSize - 1)).
Qed.

Lemma ParseResponse_status_line_witness :
  ParseResponse 64 ("SHIORI/3.0 500 Internal Error" +:+ CRLF +:+ CRLF) =
    Some (mkResponse 500 SHIORI "3.0" ∅, None) ∧
  ParseResponse 32 ("SHIORI/3.0 2147483648 OK" +:+ CRLF +:+ CRLF) =
    Some (mkResponse 2147483647 SHIORI "3.0" ∅,
          Some (NumError "Atoi" "2147483648" ErrRange)).
Proof.
  split.
  - destruct (ParseResponse_status_line 64
                ("SHIORI/3.0 500 Internal Error" +:+ CRLF +:+ CRLF)
                "SHIORI/3.0 500 Internal Error" [""; ""])
      as (_ & _ & Hmatch); [lia|by vm_compute|].
    rewrite (Hmatch "3" "0" "500" "Internal Error"); [by vm_compute| |by vm_compute].
    unfold statusShape, digits. split_and!; by vm_compute.
  - destruct (ParseResponse_status_line 32
                ("SHIORI/3.0 2147483648 OK" +:+ CRLF +:+ CRLF)
                "SHIORI/3.0 2147483648 OK" [""; ""])
      as (_ & _ & Hmatch); [lia|by vm_compute|].
    rewrite (Hmatch "3" "0" "2147483648" "OK"); [by vm_compute| |by vm_compute].
    unfold statusShape, digits. split_and!; by vm_compute.
Defined.

(** The loop of [Headers.String] appends one [key: value CRLF] per entry, in
    the order of the iteration. *)
Lemma Headers_String_in_snoc order key value :
  Headers_String_in (order ++ [(key, value)]) =
  Headers_String_in order +:+ key +:+ ": " +:+ value +:+ CRLF.
Proof. unfold Headers_String_in. by rewrite foldl_app. Qed.

Lemma Headers_String_in_cons key value order :
  Headers_String_in ((key, value) :: order) =
  key +:+ ": " +:+ value +:+ CRLF +:+ Headers_String_in order.
Proof.
  induction order as [|[k v] order IH] using rev_ind; [done|].
  rewrite app_comm_cons, !Headers_String_in_snoc, IH.
  by rewrite !str_app_assoc.
Qed.

(** The only iteration order of an empty map is the empty one. *)
Lemma rangeOrder_empty order : rangeOrder ∅ order → order = [].
Proof.
  unfold rangeOrder. rewrite map_to_list_empty. apply Permutation_nil_r.
Qed.

(** C7. A Response is rendered as [SHIORI/<Version> <Code> <ReasonPhrase>],
    CRLF, the rendered headers and a last CRLF, whatever its Protocol field
    holds.  The reason phrase is a function of Code alone: [OK] for 200, the
    empty string for every other code; a Response with Code 500 and no
    header renders as [SHIORI/3.0 500 ] followed by two CRLF. *)
Theorem Response_String_format (order : list (string * string))
    (response : Response) :
  Response_String_in order response =
    "SHIORI/" +:+ response_Version response +:+ " " +:+
    Strconv.Itoa (response_Code response) +:+ " " +:+
    (if decide (response_Code response = 200) then "OK" else "") +:+ CRLF +:+
    Headers_String_in order +:+ CRLF ∧
  Response_Message response =
    (if decide (response_Code response = 200) then "OK" else "") ∧
  (∀ response', response_Code response' = response_Code response →
                Response_Message response' = Response_Message response) ∧
  (∀ protocol version order',
     rangeOrder ∅ order' →
     Response_String_in order' (mkResponse 500 protocol version ∅) =
       "SHIORI/" +:+ version +:+ " 500 " +:+ CRLF +:+ CRLF).
Proof.
  assert (Response_Message response =
          if decide (response_Code response = 200) then "OK" else "") as Hmsg.
  { unfold Response_Message.
    destruct (Z.eqb_spec (response_Code response) 200); by case_decide. }
  split_and!.
  - unfold Response_String_in, Protocol_String. by rewrite Hmsg.
  - done.
  - intros response' Hcode. unfold Response_Message. by rewrite Hcode.
  - intros protocol version order' ->%rangeOrder_empty. done.
Qed.

Lemma Response_String_format_witness :
  Response_String_in [] (mkResponse 500 SHIORI "3.0" ∅) =
    "SHIORI/3.0 500 " +:+ CRLF +:+ CRLF.
Proof.
  apply (Response_String_format [] (mkResponse 500 SHIORI "3.0" ∅)).
  unfold rangeOrder. by rewrite map_to_list_empty.
Defined.

(** C8. A Request returned by [ParseRequest] with a nil error, and a
    Response returned by [ParseResponse] with a nil error, has Protocol
    [SHIORI]. *)
Theorem parsed_Protocol_is_SHIORI :
  (∀ requestStr request,
     ParseRequest requestStr = Some (request, None) →
     request_Protocol request = SHIORI) ∧
  (∀ intSize responseStr response,
     ParseResponse intSize responseStr = Some (response, None) →
     response_Protocol response = SHIORI).
Proof.
  split.
  - intros requestStr request. unfold ParseRequest.
    intros Hparse. repeat (simplify_option_eq || case_match); done.
  - intros intSize responseStr response. unfold ParseResponse.
    intros Hparse. repeat (simplify_option_eq || case_match); done.
Qed.

Lemma parsed_Protocol_is_SHIORI_witness :
  request_Protocol (mkRequest NOTIFY SHIORI "3.0" ∅) = SHIORI ∧
  response_Protocol (mkResponse 200 SHIORI "3.0" {["Sender" := "A"]}) = SHIORI.
Proof.
  split.
  - apply (proj1 parsed_Protocol_is_SHIORI ("NOTIFY SHIORI/3.0" +:+ CRLF +:+ CRLF)).
    vm_compute. reflexivity.
  - apply (proj2 parsed_Protocol_is_SHIORI 64
             ("SHIORI/3.0 200 OK" +:+ CRLF +:+ "Sender: A" +:+ CRLF +:+ CRLF)).
    vm_compute. reflexivity.
Defined.

(** C9. [Response.Value(i)] does not use [i]: it is the value under the
    header name [Value], the empty string when there is none; so [Value(0)]
    and [Value(7)] are the same string. *)
Theorem Response_Value_ignores_index (response : Response) (i : Z) :
  Response_Value response i = default "" (response_Headers response !! "Value") ∧
  Response_Value response 0 = Response_Value response 7.
Proof. done. Qed.

(** C10. [ParseRequest], [ParseResponse] and [ParseHeaderLines] never panic:
    splitting any string at CRLF gives at least one line, so line 0 and the
    slice from 1 exist, and each function returns a value and an error.  A
    string without CRLF, the empty string included, is its own only line. *)
Theorem parsers_total :
  (∀ s, ∃ line lines,
     Strings.Split s CRLF = line :: lines ∧
     index (Strings.Split s CRLF) 0 = Some line ∧
     slice_from (Strings.Split s CRLF) 1 = Some lines) ∧
  (∀ s, Strings.Index s CRLF = None → Strings.Split s CRLF = [s]) ∧
  Strings.Split "" CRLF = [""] ∧
  (∀ requestStr, ∃ request err, ParseRequest requestStr = Some (request, err)) ∧
  (∀ intSize responseStr,
     ∃ response err, ParseResponse intSize responseStr = Some (response, err)) ∧
  (∀ headerLines,
     ∃ headers err, ParseHeaderLines headerLines = Some (headers, err)).
Proof.
  split_and!.
  - intros s. destruct (Split_cons s CRLF) as (line & lines & ->).
    exists line, lines. by rewrite slice_from_tail.
  - intros s Hs. rewrite Split_unfold by done. by rewrite Hs.
  - done.
  - intros s. destruct (ParseRequest_total s) as [[request err] ->]. by eexists _, _.
  - intros n s. destruct (ParseResponse_total n s) as [[response err] ->].
    by eexists _, _.
  - intros ls. destruct (ParseHeaderLines_loop_total ∅ ls) as [[headers err] Hp].
    by eexists _, _.
Qed.

Lemma parsers_total_witness : Strings.Split "GET SHIORI/2.6" CRLF = ["GET SHIORI/2.6"].
Proof.
  apply (proj1 (proj2 parsers_total) "GET SHIORI/2.6"). vm_compute. reflexivity.
Defined.

(** * Further properties *)

(** ** More on strings.Index and strings.Split *)

Lemma str_take_app s t : Str.take (String.length s) (s +:+ t) = s.
Proof. induction s as [|a s IH]; [by destruct t|]. rewrite str_app_cons. simpl. by rewrite IH. Qed.

Lemma str_take_drop n s : Str.take n s +:+ Str.drop n s = s.
Proof.
  revert s. induction n as [|n IH]; intros [|a s]; simpl; try done.
  by rewrite str_app_cons, IH.
Qed.

Lemma HasPrefix_inv s pre :
  Strings.HasPrefix s pre = true → s = pre +:+ Str.drop (String.length pre) s.
Proof. apply str_prefix_inv. Qed.

Lemma Index_empty sep :
  Strings.Index "" sep = if Strings.HasPrefix "" sep then Some O else None.
Proof. reflexivity. Qed.

Lemma Index_cons a s sep :
  Strings.Index (String a s) sep =
    if Strings.HasPrefix (String a s) sep then Some O
    else S <$> Strings.Index s sep.
Proof. reflexivity. Qed.

(** [Index] returns the offset of an occurrence. *)
Lemma Index_Some_cut s sep m :
  Strings.Index s sep = Some m →
  s = Str.take m s +:+ sep +:+ Str.drop (m + String.length sep) s.
Proof.
  revert m. induction s as [|a s IH]; intros m.
  - rewrite Index_empty. destruct (Strings.HasPrefix "" sep) eqn:Hp; [|done].
    intros [= <-]. by apply HasPrefix_inv in Hp.
  - rewrite Index_cons. destruct (Strings.HasPrefix (String a s) sep) eqn:Hp.
    + intros [= <-]. by apply HasPrefix_inv in Hp.
    + destruct (Strings.Index s sep) as [m'|]; [|done]. intros [= <-].
      simpl. rewrite str_app_cons. f_equal. by apply IH.
Qed.

Lemma str_length_take n s :
  (n ≤ String.length s)%nat → String.length (Str.take n s) = n.
Proof.
  revert s. induction n as [|n IH]; intros [|a s]; simpl; try lia.
  intros H. f_equal. apply IH. lia.
Qed.

Lemma Index_Some_le s sep m :
  Strings.Index s sep = Some m → (m ≤ String.length s)%nat.
Proof.
  revert m. induction s as [|a s IH]; intros m.
  - rewrite Index_empty. destruct (Strings.HasPrefix "" sep); [|done].
    intros [= <-]. done.
  - rewrite Index_cons. destruct (Strings.HasPrefix (String a s) sep).
    + intros [= <-]. simpl. lia.
    + destruct (Strings.Index s sep) as [m'|]; [|done]. intros [= <-].
      simpl. specialize (IH m' eq_refl). lia.
Qed.

Lemma Index_Some_bound s sep m :
  Strings.Index s sep = Some m → (m + String.length sep ≤ String.length s)%nat.
Proof.
  intros Hm. pose proof (Index_Some_le _ _ _ Hm) as Hle.
  apply Index_Some_cut in Hm. apply (f_equal String.length) in Hm.
  rewrite !str_length_app, str_length_take, str_length_drop in Hm by done. lia.
Qed.

Lemma Split_lines_nonempty s sep : Strings.Split s sep ≠ [].
Proof. by destruct (Split_cons s sep) as (line & lines & ->). Qed.

Lemma concat_cons sep x xs :
  xs ≠ [] → String.concat sep (x :: xs) = x +:+ sep +:+ String.concat sep xs.
Proof. by destruct xs. Qed.

Lemma Split_concat s sep :
  sep ≠ "" → String.concat sep (Strings.Split s sep) = s.
Proof.
  intros Hsep. remember (String.length s) as n eqn:Hn. revert s Hn.
  induction (lt_wf n) as [n _ IH]; intros s ->.
  rewrite Split_unfold by done.
  destruct (Strings.Index s sep) as [m|] eqn:Hm; [|done].
  rewrite concat_cons by apply Split_lines_nonempty.
  rewrite (IH (String.length (Str.drop (m + String.length sep) s))); [|..|done].
  - symmetry. by apply Index_Some_cut.
  - apply Index_Some_bound in Hm. rewrite str_length_drop.
    assert (0 < String.length sep)%nat by (destruct sep; [done|simpl; lia]). lia.
Qed.

Lemma prefix_take p n s :
  String.prefix p (Str.take n s) = true → String.prefix p s = true.
Proof.
  revert n s. induction p as [|a p IH]; intros n s; [by destruct s|].
  destruct n as [|n], s as [|b s]; simpl; try done.
  destruct (ascii_dec a b); [|done]. apply IH.
Qed.

Lemma Index_take s sep m :
  sep ≠ "" → Strings.Index s sep = Some m →
  Strings.Index (Str.take m s) sep = None.
Proof.
  intros Hsep. revert m. induction s as [|a s IH]; intros m.
  - destruct m; intros _; by apply Index_nil.
  - rewrite Index_cons. destruct (Strings.HasPrefix (String a s) sep) eqn:Hp.
    + intros [= <-]. by apply Index_nil.
    + destruct (Strings.Index s sep) as [m'|] eqn:Hm'; [|done]. intros [= <-].
      cbn [Str.take]. rewrite Index_cons, (IH m') by done.
      destruct (Strings.HasPrefix (String a (Str.take m' s)) sep) eqn:Hp'; [|done].
      apply (prefix_take sep (S m') (String a s)) in Hp'.
      unfold Strings.HasPrefix in Hp. congruence.
Qed.

Lemma Split_pieces s sep :
  sep ≠ "" → Forall (λ line, Strings.Index line sep = None) (Strings.Split s sep).
Proof.
  intros Hsep. remember (String.length s) as n eqn:Hn. revert s Hn.
  induction (lt_wf n) as [n _ IH]; intros s ->.
  rewrite Split_unfold by done.
  destruct (Strings.Index s sep) as [m|] eqn:Hm; [|by repeat constructor].
  constructor; [by apply Index_take|].
  apply (IH (String.length (Str.drop (m + String.length sep) s))); [|done].
  apply Index_Some_bound in Hm. rewrite str_length_drop.
  assert (0 < String.length sep)%nat by (destruct sep; [done|simpl; lia]). lia.
Qed.

(** *** Splitting at CRLF *)

Lemma prefix_empty s : String.prefix "" s = true.
Proof. by destruct s. Qed.

Lemma prefix_cons a p b s :
  String.prefix (String a p) (String b s) =
    if ascii_dec a b then String.prefix p s else false.
Proof. reflexivity. Qed.

Lemma HasPrefix_CRLF_app c a b :
  Strings.HasPrefix (String c (a +:+ CRLF +:+ b)) CRLF =
  Strings.HasPrefix (String c a) CRLF.
Proof.
  unfold Strings.HasPrefix, CRLF. rewrite !prefix_cons.
  destruct (ascii_dec CR c); [|done].
  destruct a as [|d a]; [rewrite str_app_nil_l, str_app_cons, prefix_cons|].
  - by destruct (ascii_dec LF CR).
  - rewrite str_app_cons, !prefix_cons. destruct (ascii_dec LF d); [|done].
    by rewrite !prefix_empty.
Qed.

Lemma Index_app_CRLF a b :
  Strings.Index (a +:+ CRLF +:+ b) CRLF =
    Some (default (String.length a) (Strings.Index a CRLF)).
Proof.
  induction a as [|c a IH].
  { rewrite str_app_nil_l, (Index_nil CRLF) by done. unfold CRLF.
    rewrite !str_app_cons, str_app_nil_l, Index_cons. unfold Strings.HasPrefix.
    rewrite !prefix_cons, prefix_empty.
    by destruct (ascii_dec CR CR), (ascii_dec LF LF). }
  rewrite str_app_cons, !Index_cons, HasPrefix_CRLF_app.
  destruct (Strings.HasPrefix (String c a) CRLF); [done|].
  rewrite IH. by destruct (Strings.Index a CRLF).
Qed.

Lemma str_take_app_le n s t :
  (n ≤ String.length s)%nat → Str.take n (s +:+ t) = Str.take n s.
Proof.
  revert s. induction n as [|n IH]; intros [|a s] H; simpl in *; try done; try lia.
  rewrite ?str_app_cons; simpl. f_equal. apply IH. lia.
Qed.

Lemma str_drop_app_le n s t :
  (n ≤ String.length s)%nat → Str.drop n (s +:+ t) = Str.drop n s +:+ t.
Proof.
  revert s. induction n as [|n IH]; intros [|a s] H; simpl in *; try done; try lia.
  rewrite ?str_app_cons; simpl. apply IH. lia.
Qed.

(** The lines of [a CRLF b] are those of [a], then those of [b]. *)
Lemma Split_app_CRLF a b :
  Strings.Split (a +:+ CRLF +:+ b) CRLF =
  Strings.Split a CRLF ++ Strings.Split b CRLF.
Proof.
  remember (String.length a) as n eqn:Hn. revert a Hn.
  induction (lt_wf n) as [n _ IH]; intros a ->.
  rewrite (Split_unfold (a +:+ _)), (Split_unfold a), Index_app_CRLF by done.
  destruct (Strings.Index a CRLF) as [m|] eqn:Hm; simpl.
  - pose proof (Index_Some_bound _ _ _ Hm) as Hb. simpl in Hb.
    rewrite str_take_app_le, str_drop_app_le by (simpl; lia). f_equal.
    apply (IH (String.length (Str.drop (m + 2) a))); [|done].
    rewrite str_length_drop. lia.
  - rewrite str_take_app. f_equal.
    change (String.length a + 2)%nat with (String.length a + String.length CRLF)%nat.
    by rewrite <-str_length_app, <-str_app_assoc, str_drop_app.
Qed.

Lemma Split_line line rest :
  Strings.Index line CRLF = None →
  Strings.Split (line +:+ CRLF +:+ rest) CRLF = line :: Strings.Split rest CRLF.
Proof.
  intros Hline. rewrite Split_app_CRLF, (Split_unfold line) by done.
  by rewrite Hline.
Qed.

(** ** The request line *)

(** A text is cut in one way only at the last byte outside a class. *)
Lemma str_cut_unique_right p s s' a a' t t' :
  Str.all p t = true → Str.all p t' = true → p a = false → p a' = false →
  s +:+ String a t = s' +:+ String a' t' → s = s' ∧ a = a' ∧ t = t'.
Proof.
  intros Ht Ht' Ha Ha'. revert s'.
  induction s as [|b s IH]; intros [|b' s']; rewrite ?str_app_cons, ?str_app_nil_l;
    intros Heq; simplify_eq/=.
  - done.
  - rewrite str_all_app in Ht. simpl in Ht. rewrite Ha', andb_false_r in Ht. done.
  - rewrite str_all_app in Ht'. simpl in Ht'. rewrite Ha, andb_false_r in Ht'. done.
  - destruct (IH s') as (-> & -> & ->); done.
Qed.

Lemma requestLineRe_sound line m :
  FindStringSubmatch requestLineRe line = Some m →
  ∃ token major minor,
    requestShape line token major minor ∧ noLF token ∧
    m = [line; token; major +:+ "." +:+ minor].
Proof.
  rewrite FindStringSubmatch_anchored by done.
  intros (c & rest & caps' & -> & HM & ->)%matchAt_sound.
  unfold requestLineRe in HM. simpl in HM. break_matches.
  match goal with
  | |- context [<[2%nat:=(?a +:+ ".") +:+ ?b]> (<[1%nat:=?t]> _)] =>
      exists t, a, b
  end.
  unfold requestShape, digits. split_and!; try done; simpl; by norm_app.
Qed.

Lemma requestShape_unique line token major minor token' major' minor' :
  requestShape line token major minor →
  requestShape line token' major' minor' →
  token' = token ∧ major' = major ∧ minor' = minor.
Proof.
  intros (-> & _ & [_ H1] & [_ H2]) (Heq & _ & [_ H1'] & [_ H2']).
  assert (∀ t M m, t +:+ " SHIORI/" +:+ M +:+ "." +:+ m =
                   (t +:+ " SHIORI/" +:+ M) +:+ String "." m) as Hassoc.
  { intros. by norm_app. }
  rewrite !Hassoc in Heq.
  apply (str_cut_unique_right isDigit) in Heq as (Heq & _ & ->); [|done..].
  assert (∀ t M, t +:+ " SHIORI/" +:+ M = (t +:+ " SHIORI") +:+ String "/" M)
    as Hassoc'.
  { intros. by norm_app. }
  rewrite !Hassoc' in Heq.
  apply (str_cut_unique_right isDigit) in Heq as (Heq & _ & ->); [|done..].
  apply (str_cut_unique_right (λ b, negb (Ascii.eqb b " "))) in Heq
    as (-> & _ & _); done.
Qed.

Lemma requestLineRe_complete line token major minor :
  requestShape line token major minor → noLF token →
  FindStringSubmatch requestLineRe line =
    Some [line; token; major +:+ "." +:+ minor].
Proof.
  intros Hshape Htoken.
  assert (is_Some (FindStringSubmatch requestLineRe line)) as [m Hm].
  { destruct Hshape as (-> & ? & [? ?] & [? ?]).
    rewrite FindStringSubmatch_anchored by done.
    match goal with |- is_Some (matchAt _ _ ?l) =>
      replace l with
        ((((("" +:+ token) +:+ " SHIORI/") +:+ (major +:+ ".") +:+ minor) +:+ "")
           +:+ "") by by norm_app
    end.
    eapply matchAt_complete. unfold requestLineRe. simpl.
    repeat first [done | eexists | split]. }
  rewrite Hm.
  apply requestLineRe_sound in Hm as (token' & major' & minor' & Hshape' & _ & ->).
  by destruct (requestShape_unique _ _ _ _ _ _ _ Hshape Hshape') as (-> & -> & ->).
Qed.

(** ** ParseRequest, by cases on the request line *)

Lemma ParseRequest_no_match requestStr requestLine headerLines :
  Strings.Split requestStr CRLF = requestLine :: headerLines →
  FindStringSubmatch requestLineRe requestLine = None →
  ParseRequest requestStr =
    Some (mkRequest InvalidMethod SHIORI "" ∅,
          Some (ParseRequestError ("request line parse failed: " +:+ requestLine))).
Proof.
  intros Hsplit Hno. unfold ParseRequest.
  rewrite Hsplit, slice_from_tail. simpl. by rewrite Hno.
Qed.

Lemma ParseRequest_match requestStr requestLine headerLines token major minor :
  Strings.Split requestStr CRLF = requestLine :: headerLines →
  requestShape requestLine token major minor → noLF token →
  ParseRequest requestStr =
    match ToMethod token with
    | (method, Some err) => Some (mkRequest method SHIORI "" ∅, Some err)
    | (method, None) =>
        '(headers, err) ← ParseHeaderLines headerLines;
        Some (mkRequest method SHIORI (major +:+ "." +:+ minor) headers, err)
    end.
Proof.
  intros Hsplit Hshape Htoken. unfold ParseRequest.
  rewrite Hsplit, slice_from_tail. simpl.
  rewrite (requestLineRe_complete _ token major minor) by done. simpl.
  by destruct (ToMethod token) as [method [err|]].
Qed.

(** The request line of a text that parses without error. *)
Lemma ParseRequest_success requestStr request :
  ParseRequest requestStr = Some (request, None) →
  ∃ token major minor headerLines,
    Strings.Split requestStr CRLF =
      (token +:+ " SHIORI/" +:+ major +:+ "." +:+ minor) :: headerLines ∧
    digits major ∧ digits minor ∧
    ToMethod token = (request_Method request, None) ∧
    request_Protocol request = SHIORI ∧
    request_Version request = major +:+ "." +:+ minor ∧
    ParseHeaderLines headerLines = Some (request_Headers request, None).
Proof.
  destruct (Split_cons requestStr CRLF) as (line & headerLines & Hsplit).
  destruct (FindStringSubmatch requestLineRe line) as [m|] eqn:Hm.
  - apply requestLineRe_sound in Hm as (token & major & minor & Hshape & Htoken & _).
    rewrite (ParseRequest_match _ _ _ _ _ _ Hsplit Hshape Htoken).
    destruct (ToMethod token) as [method [err|]] eqn:Hmethod; [done|].
    destruct (ParseHeaderLines headerLines) as [[headers err]|] eqn:Hheaders; [|done].
    simpl. intros [= <- ->].
    destruct Hshape as (-> & _ & ? & ?).
    by exists token, major, minor, headerLines.
  - by rewrite (ParseRequest_no_match _ _ _ Hsplit Hm).
Qed.

(** ** Invariants of the loop of ParseHeaderLines *)

Lemma ParseHeaderLines_loop_inv (P : string → string → Prop)
    headerLines headers headers' err :
  ParseHeaderLines_loop headers headerLines = Some (headers', err) →
  (∀ line key value,
     line ∈ headerLines → headerOf line = Some (key, value) → P key value) →
  map_Forall P headers → map_Forall P headers'.
Proof.
  revert headers. induction headerLines as [|line ls IH]; intros h; simpl.
  - by intros [= <- <-].
  - intros Hloop HP Hh. destruct (String.eqb line ""); [by simplify_eq|].
    pose proof (HP line) as Hline. unfold headerOf in Hline.
    destruct (FindStringSubmatch headerRe line) as [m|]; [|by simplify_eq].
    simpl in *. destruct (index m 1) as [k|]; [|done].
    destruct (index m 2) as [v|]; [|done]. simpl in *.
    eapply IH; [done| |].
    + intros l k' v' Hl. apply HP. by right.
    + apply map_Forall_insert_2; [|done]. apply Hline; [by left|done].
Qed.

Lemma ParseHeaderLines_loop_error headerLines headers headers' err :
  ParseHeaderLines_loop headers headerLines = Some (headers', Some err) →
  ∃ line, line ∈ headerLines ∧ line ≠ "" ∧ headerOf line = None ∧
          err = ParseHeaderError ("header line parse failed: " +:+ line).
Proof.
  revert headers. induction headerLines as [|line ls IH]; intros h; simpl; [done|].
  destruct (String.eqb_spec line "") as [->|Hne]; [done|].
  destruct (FindStringSubmatch headerRe line) as [m|] eqn:Hm.
  - destruct (index m 1) as [k|]; [|done]. destruct (index m 2) as [v|]; [|done].
    simpl. intros (l & Hl & ?)%IH. exists l. split; [by right|done].
  - intros [= <- <-]. exists line. split_and!; [by left|done| |done].
    by apply headerOf_None.
Qed.

(** ** Rendered text and its lines *)

Lemma str_all_impl (p q : ascii → bool) s :
  (∀ b, p b = true → q b = true) → Str.all p s = true → Str.all q s = true.
Proof.
  intros Hpq. induction s as [|a s IH]; simpl; [done|].
  intros [Ha Hs]%andb_prop. by rewrite (Hpq a Ha), IH.
Qed.

Lemma digits_noLF s : Str.all isDigit s = true → noLF s.
Proof. apply str_all_impl. intros b Hb. by destruct (Ascii.eqb_spec b LF) as [->|]. Qed.

Lemma HasPrefix_CRLF_false c s :
  noLF s → Strings.HasPrefix (String c s) CRLF = false.
Proof.
  unfold Strings.HasPrefix, CRLF, noLF. rewrite prefix_cons.
  destruct (ascii_dec CR c); [|done]. destruct s as [|d s]; [done|].
  rewrite prefix_cons. destruct (ascii_dec LF d) as [<-|]; [|done].
  simpl. done.
Qed.

(** A text without line feed has no CRLF. *)
Lemma noLF_Index s : noLF s → Strings.Index s CRLF = None.
Proof.
  induction s as [|c s IH]; [done|]. intros Hs.
  pose proof Hs as [_ Hs']%andb_prop.
  rewrite Index_cons, HasPrefix_CRLF_false, IH; try done.
Qed.

Lemma HasPrefix_CRLF_app_noLF c a b :
  noLF b →
  Strings.HasPrefix (String c (a +:+ b)) CRLF = Strings.HasPrefix (String c a) CRLF.
Proof.
  intros Hb. destruct a as [|d a].
  - rewrite str_app_nil_l, HasPrefix_CRLF_false by done.
    unfold Strings.HasPrefix, CRLF. rewrite prefix_cons.
    by destruct (ascii_dec CR c).
  - unfold Strings.HasPrefix, CRLF. rewrite str_app_cons, !prefix_cons.
    destruct (ascii_dec CR c); [|done]. destruct (ascii_dec LF d); [|done].
    by rewrite !prefix_empty.
Qed.

(** Appending a text without line feed brings no CRLF. *)
Lemma Index_app_noLF a b :
  Strings.Index a CRLF = None → noLF b → Strings.Index (a +:+ b) CRLF = None.
Proof.
  intros Ha Hb. induction a as [|c a IH]; [by apply noLF_Index|].
  rewrite Index_cons in Ha. rewrite str_app_cons, Index_cons, HasPrefix_CRLF_app_noLF by done.
  destruct (Strings.HasPrefix (String c a) CRLF); [done|].
  destruct (Strings.Index a CRLF); [done|]. by rewrite IH.
Qed.

Lemma headerText_Index key value :
  wfHeader key value → Strings.Index (headerText (key, value)) CRLF = None.
Proof.
  intros (_ & _ & Hk & Hv). unfold headerText. simpl.
  apply Index_app_noLF; [done|].
  unfold noLF in *. rewrite str_all_app. by rewrite Hv.
Qed.

Lemma headerText_headerOf key value :
  wfHeader key value → headerOf (headerText (key, value)) = Some (key, value).
Proof. intros (? & ? & _ & ?). by apply headerOf_Some. Qed.

Lemma headerText_nonempty key value :
  wfHeader key value → headerText (key, value) ≠ "".
Proof. intros (Hk & _). unfold headerText. simpl. by destruct key. Qed.

(** The lines of a rendered header block: one per entry, then the empty
    line after the last CRLF. *)
Lemma Split_Headers_String_in order :
  Forall (λ kv, wfHeader kv.1 kv.2) order →
  Strings.Split (Headers_String_in order) CRLF = (headerText <$> order) ++ [""].
Proof.
  induction 1 as [|[k v] order Hkv _ IH]; [done|].
  rewrite Headers_String_in_cons.
  replace (k +:+ ": " +:+ v +:+ CRLF +:+ Headers_String_in order)
    with (headerText (k, v) +:+ CRLF +:+ Headers_String_in order)
    by (unfold headerText; simpl; by rewrite !str_app_assoc).
  rewrite Split_line by by apply headerText_Index. by rewrite IH.
Qed.

Lemma omap_headerOf_headerText order :
  Forall (λ kv, wfHeader kv.1 kv.2) order →
  omap headerOf (headerText <$> order) = order ∧
  Forall headerLine (headerText <$> order).
Proof.
  induction 1 as [|[k v] order Hkv _ [IH1 IH2]]; [done|]. simpl in Hkv. split.
  - rewrite fmap_cons. simpl. rewrite headerText_headerOf by done.
    f_equal. exact IH1.
  - rewrite fmap_cons. constructor; [|done].
    split; [by apply headerText_nonempty|]. by rewrite headerText_headerOf.
Qed.

(** Assigning the entries of a map, in any order, builds the map. *)
Lemma insertAll_rangeOrder (headers : Headers) order :
  rangeOrder headers order → insertAll ∅ order = headers.
Proof.
  unfold rangeOrder. intros Horder. apply map_eq. intros key.
  assert (NoDup order.*1) as Hnodup.
  { rewrite Horder. apply NoDup_fst_map_to_list. }
  destruct (headers !! key) as [value|] eqn:Hlookup.
  - apply elem_of_map_to_list in Hlookup. rewrite <-Horder in Hlookup.
    apply list_elem_of_split in Hlookup as (kvs1 & kvs2 & ->).
    apply insertAll_last.
    rewrite fmap_app, fmap_cons in Hnodup.
    apply NoDup_app in Hnodup as (_ & _ & Hnodup).
    by apply NoDup_cons in Hnodup as [? _].
  - rewrite insertAll_absent; [done|].
    intros ((k & v) & -> & Hin)%list_elem_of_fmap. simpl in *.
    rewrite Horder in Hin. apply elem_of_map_to_list in Hin. congruence.
Qed.

Lemma rangeOrder_Forall (P : string → string → Prop) (headers : Headers) order :
  rangeOrder headers order → map_Forall P headers → Forall (λ kv, P kv.1 kv.2) order.
Proof.
  unfold rangeOrder. intros Horder HP. apply Forall_forall. intros [k v] Hin.
  rewrite Horder in Hin. apply elem_of_map_to_list in Hin. by apply HP in Hin.
Qed.

(** Parsing the rendered header block gives the map back. *)
Lemma ParseHeaderLines_rendered (headers : Headers) order tail :
  map_Forall wfHeader headers → rangeOrder headers order →
  ParseHeaderLines (Strings.Split (Headers_String_in order) CRLF ++ tail) =
    Some (headers, None).
Proof.
  intros Hwf Horder.
  pose proof (rangeOrder_Forall _ _ _ Horder Hwf) as Hall.
  rewrite Split_Headers_String_in, <-app_assoc by done. simpl.
  destruct (omap_headerOf_headerText order Hall) as [Homap Hlines].
  unfold ParseHeaderLines.
  rewrite ParseHeaderLines_loop_stop, ParseHeaderLines_loop_headerLines by done.
  by rewrite Homap, (insertAll_rangeOrder headers).
Qed.

(** ** strconv.Itoa *)

Lemma string_of_uint_digits d : Str.all isDigit (NilEmpty.string_of_uint d) = true.
Proof. induction d; simpl; by rewrite ?IHd. Qed.

Lemma NilZero_string_of_uint_digits d : digits (NilZero.string_of_uint d).
Proof.
  split.
  - by destruct d.
  - destruct d; try apply (string_of_uint_digits (_ _)). done.
Qed.

Lemma Itoa_nonneg i : 0 ≤ i → digits (Strconv.Itoa i).
Proof.
  intros Hi. unfold Strconv.Itoa. destruct i as [|p|p]; [| |lia];
    apply NilZero_string_of_uint_digits.
Qed.

Lemma Itoa_neg i :
  i < 0 → ∃ d, Strconv.Itoa i = String "-" d ∧ digits d.
Proof.
  intros Hi. unfold Strconv.Itoa. destruct i as [|p|p]; [lia..|].
  eexists. split; [reflexivity|]. apply NilZero_string_of_uint_digits.
Qed.

Lemma Itoa_noLF i : noLF (Strconv.Itoa i).
Proof.
  destruct (Z.le_gt_cases 0 i) as [Hi|Hi].
  - apply digits_noLF, Itoa_nonneg, Hi.
  - apply Itoa_neg in Hi as (d & -> & Hd).
    unfold noLF. simpl. by apply digits_noLF, Hd.
Qed.

Lemma Itoa_inj i j : Strconv.Itoa i = Strconv.Itoa j → i = j.
Proof.
  unfold Strconv.Itoa. intros Heq. apply DecimalZ.to_int_inj.
  assert (∀ z, NilZero.int_of_string (NilZero.string_of_int (Z.to_int z)) =
               Some (Z.to_int z)) as Hisi.
  { intros z. apply NilZero.isi; destruct z as [|p|p]; simpl; try done;
      intros [= Hp]; by apply DecimalPos.Unsigned.to_uint_nonnil in Hp. }
  apply (f_equal NilZero.int_of_string) in Heq. rewrite !Hisi in Heq. congruence.
Qed.

(** ** ParseResponse, by cases on the status line *)

Lemma ParseResponse_no_match intSize responseStr statusLine headerLines :
  Strings.Split responseStr CRLF = statusLine :: headerLines →
  FindStringSubmatch statusLineRe statusLine = None →
  ParseResponse intSize responseStr =
    Some (mkResponse 0 SHIORI "" ∅,
          Some (ParseResponseError ("status line parse failed: " +:+ statusLine))).
Proof.
  intros Hsplit Hno. unfold ParseResponse.
  rewrite Hsplit, slice_from_tail. simpl. by rewrite Hno.
Qed.

Lemma ParseResponse_match intSize responseStr statusLine headerLines
    major minor code reason :
  0 < intSize →
  Strings.Split responseStr CRLF = statusLine :: headerLines →
  statusShape statusLine major minor code reason → noLF reason →
  ParseResponse intSize responseStr =
    if decimal code <? 2 ^ (intSize - 1) then
      '(headers, err) ← ParseHeaderLines headerLines;
      Some (mkResponse (decimal code) SHIORI (major +:+ "." +:+ minor) headers, err)
    else
      Some (mkResponse (2 ^ (intSize - 1) - 1) SHIORI (major +:+ "." +:+ minor) ∅,
            Some (NumError "Atoi" code ErrRange)).
Proof.
  intros Hsize Hsplit Hshape Hreason.
  unfold ParseResponse. rewrite Hsplit, slice_from_tail. simpl.
  rewrite (statusLineRe_complete _ major minor code reason) by done. simpl.
  rewrite Atoi_digits by (done || apply Hshape).
  by destruct (decimal code <? 2 ^ (intSize - 1)).
Qed.

Lemma decimal_nonneg s : Str.all isDigit s = true → 0 ≤ decimal s.
Proof. intros Hs. by apply (decimalFrom_ge 0 s). Qed.

(** ** Lines of a rendered message *)

(** The lines of a first line, CRLF, the rendered headers and CRLF. *)
Lemma Split_message line order :
  Strings.Index line CRLF = None →
  Strings.Split (line +:+ CRLF +:+ Headers_String_in order +:+ CRLF) CRLF =
    line :: Strings.Split (Headers_String_in order) CRLF ++ [""].
Proof.
  intros Hline. rewrite Split_line by done. f_equal.
  rewrite <-(str_app_nil_r CRLF) at 1. by rewrite Split_app_CRLF.
Qed.

Lemma versionShape_noLF version : versionShape version → noLF version.
Proof.
  intros (major & minor & -> & [_ H1] & [_ H2]). unfold noLF.
  rewrite !str_all_app. apply digits_noLF in H1, H2. unfold noLF in *.
  by rewrite H1, H2.
Qed.

(** The request line is cut in one way only. *)
Lemma request_line_cut token major minor token' major' minor' :
  Str.all isDigit major = true → Str.all isDigit minor = true →
  Str.all isDigit major' = true → Str.all isDigit minor' = true →
  token +:+ " SHIORI/" +:+ major +:+ "." +:+ minor =
  token' +:+ " SHIORI/" +:+ major' +:+ "." +:+ minor' →
  token = token' ∧ major = major' ∧ minor = minor'.
Proof.
  intros H1 H2 H1' H2' Heq.
  assert (∀ t M m, t +:+ " SHIORI/" +:+ M +:+ "." +:+ m =
                   (t +:+ " SHIORI/" +:+ M) +:+ String "." m) as Hassoc.
  { intros. by norm_app. }
  rewrite !Hassoc in Heq.
  apply (str_cut_unique_right isDigit) in Heq as (Heq & _ & ->); [|done..].
  assert (∀ t M, t +:+ " SHIORI/" +:+ M = (t +:+ " SHIORI") +:+ String "/" M)
    as Hassoc'.
  { intros. by norm_app. }
  rewrite !Hassoc' in Heq.
  apply (str_cut_unique_right isDigit) in Heq as (Heq & _ & ->); [|done..].
  apply (str_cut_unique_right (λ b, negb (Ascii.eqb b " "))) in Heq
    as (-> & _ & _); done.
Qed.

(** A request line with an empty token is not matched. *)
Lemma requestLineRe_empty_token version :
  versionShape version →
  FindStringSubmatch requestLineRe (" SHIORI/" +:+ version) = None.
Proof.
  intros (major & minor & -> & [_ H1] & [_ H2]).
  destruct (FindStringSubmatch requestLineRe _) as [m|] eqn:Hm; [|done].
  apply requestLineRe_sound in Hm
    as (token & major' & minor' & (Heq & Hne & [_ H1'] & [_ H2']) & _).
  apply (request_line_cut "") in Heq as (<- & _); done.
Qed.

(** A status line that ends after the space behind the code is not
    matched, nor is one whose code has a sign: no rendered code but 200
    gives a line that [statusLineRe] matches. *)
Lemma statusLineRe_empty_reason version i :
  versionShape version →
  FindStringSubmatch statusLineRe
    ("SHIORI/" +:+ version +:+ " " +:+ Strconv.Itoa i +:+ " ") = None.
Proof.
  intros (major & minor & -> & [_ H1] & [_ H2]).
  destruct (FindStringSubmatch statusLineRe _) as [m|] eqn:Hm; [|done].
  apply statusLineRe_sound in Hm
    as (major' & minor' & code' & reason &
        (Heq & [_ H1'] & [_ H2'] & [Hne' H3'] & Hreason) & _).
  revert Heq. norm_app. intros [= Heq].
  apply (str_cut_unique isDigit) in Heq as (-> & _ & Heq); [|done..].
  apply (str_cut_unique isDigit) in Heq as (-> & _ & Heq); [|done..].
  destruct (Z.le_gt_cases 0 i) as [Hi|Hi].
  - apply Itoa_nonneg in Hi as [_ Hi].
    apply (str_cut_unique isDigit) in Heq as (_ & _ & Hr); [|done..].
    rewrite str_app_nil_l in Hr. by subst.
  - apply Itoa_neg in Hi as (d & Hd & _). rewrite Hd in Heq.
    destruct code' as [|b code']; [done|].
    rewrite !str_app_cons in Heq. injection Heq as Hb _.
    apply andb_prop in H3' as [H3' _]. by subst.
Qed.

Lemma ParseHeaderLines_error_kind headerLines headers err :
  ParseHeaderLines headerLines = Some (headers, Some err) →
  ∃ msg, err = ParseHeaderError msg.
Proof.
  unfold ParseHeaderLines.
  intros (line & _ & _ & _ & ->)%ParseHeaderLines_loop_error. by eexists.
Qed.

(** X1. [ParseRequest] fails with a [ParseRequestError] exactly when line 0
    of the text is not [<token> SHIORI/<major>.<minor>] with a non-empty
    token free of line feed and two non-empty runs of digits; the error
    carries line 0 and the Request returned with it has no field set but
    Protocol. *)
Theorem ParseRequest_request_line (requestStr requestLine : string)
    (headerLines : list string) :
  Strings.Split requestStr CRLF = requestLine :: headerLines →
  ((∃ request msg,
      ParseRequest requestStr = Some (request, Some (ParseRequestError msg))) ↔
   ¬ ∃ token major minor,
       requestShape requestLine token major minor ∧ noLF token) ∧
  ((¬ ∃ token major minor,
        requestShape requestLine token major minor ∧ noLF token) →
   ParseRequest requestStr =
     Some (mkRequest InvalidMethod SHIORI "" ∅,
           Some (ParseRequestError ("request line parse failed: " +:+ requestLine)))).
Proof.
  intros Hsplit.
  assert ((¬ ∃ token major minor,
             requestShape requestLine token major minor ∧ noLF token) →
          ParseRequest requestStr =
            Some (mkRequest InvalidMethod SHIORI "" ∅,
                  Some (ParseRequestError
                          ("request line parse failed: " +:+ requestLine))))
    as Hreject.
  { intros Hno. apply (ParseRequest_no_match _ _ _ Hsplit).
    destruct (FindStringSubmatch requestLineRe requestLine) as [m|] eqn:Hm; [|done].
    apply requestLineRe_sound in Hm as (token & major & minor & ? & ? & _).
    destruct Hno. by exists token, major, minor. }
  split; [split|done].
  - intros (request & msg & Hparse) (token & major & minor & Hshape & Htoken).
    rewrite (ParseRequest_match _ _ _ _ _ _ Hsplit Hshape Htoken) in Hparse.
    unfold ToMethod in Hparse.
    repeat case_match; simplify_eq/=;
      (destruct (ParseHeaderLines headerLines) as [[h [e|]]|] eqn:Hh; simplify_eq/=;
       by apply ParseHeaderLines_error_kind in Hh as [? ?]).
  - intros Hno. eexists _, _. by apply Hreject.
Qed.

Lemma ParseRequest_request_line_witness :
  ParseRequest ("GET SHIORI/2" +:+ CRLF +:+ CRLF) =
    Some (mkRequest InvalidMethod SHIORI "" ∅,
          Some (ParseRequestError "request line parse failed: GET SHIORI/2")).
Proof.
  apply (ParseRequest_request_line _ "GET SHIORI/2" [""; ""]); [by vm_compute|].
  intros (token & major & minor & Hshape & Htoken).
  pose proof (requestLineRe_complete _ _ _ _ Hshape Htoken) as Hm.
  vm_compute in Hm. discriminate Hm.
Defined.

(** X2. When the request line has the right shape but its token is neither
    [GET] nor [NOTIFY], [ParseRequest] returns the [InvalidMethodError] of
    the token and a Request without Version and without headers: the
    header block is not looked at, whatever it holds. *)
Theorem ParseRequest_unknown_method (requestStr token major minor : string)
    (headerLines : list string) :
  Strings.Split requestStr CRLF =
    (token +:+ " SHIORI/" +:+ major +:+ "." +:+ minor) :: headerLines →
  token ≠ "" → noLF token → digits major → digits minor →
  token ≠ "GET" → token ≠ "NOTIFY" →
  ParseRequest requestStr =
    Some (mkRequest InvalidMethod SHIORI "" ∅, Some (InvalidMethodError token)).
Proof.
  intros Hsplit Hne Htoken Hmajor Hminor Hget Hnotify.
  rewrite (ParseRequest_match _ _ _ token major minor Hsplit); [|done..].
  unfold ToMethod.
  destruct (String.eqb_spec token "GET"); [done|].
  by destruct (String.eqb_spec token "NOTIFY").
Qed.

Lemma ParseRequest_unknown_method_witness :
  ParseRequest ("FOO SHIORI/1.0" +:+ CRLF +:+ "BadLineNoColon" +:+ CRLF +:+ CRLF) =
    Some (mkRequest InvalidMethod SHIORI "" ∅, Some (InvalidMethodError "FOO")).
Proof.
  apply (ParseRequest_unknown_method _ "FOO" "1" "0" ["BadLineNoColon"; ""; ""]);
    try done; by vm_compute.
Defined.

Lemma prefix_app_l p s t :
  String.prefix p s = true → String.prefix p (s +:+ t) = true.
Proof.
  revert s. induction p as [|a p IH]; intros s; [intros _; apply prefix_empty|].
  destruct s as [|b s]; [done|]. rewrite str_app_cons, !prefix_cons.
  destruct (ascii_dec a b); [apply IH|done].
Qed.

(** A text without [sep] has no [sep] in its prefixes. *)
Lemma Index_app_l a b sep :
  Strings.Index (a +:+ b) sep = None → Strings.Index a sep = None.
Proof.
  induction a as [|c a IH].
  - rewrite str_app_nil_l, Index_empty.
    destruct (Strings.HasPrefix "" sep) eqn:Hp; [|done].
    apply (prefix_app_l _ _ b) in Hp. rewrite str_app_nil_l in Hp.
    destruct b; [rewrite Index_empty|rewrite Index_cons];
      unfold Strings.HasPrefix; by rewrite Hp.
  - rewrite str_app_cons, !Index_cons.
    destruct (Strings.HasPrefix (String c a) sep) eqn:Hp.
    + apply (prefix_app_l _ _ b) in Hp. rewrite str_app_cons in Hp.
      unfold Strings.HasPrefix. by rewrite Hp.
    + destruct (Strings.HasPrefix (String c (a +:+ b)) sep); [done|].
      destruct (Strings.Index (a +:+ b) sep); [done|]. by rewrite IH.
Qed.

(** The headers read from lines without CRLF are well formed. *)
Lemma ParseHeaderLines_wfHeader headerLines headers err :
  Forall (λ line, Strings.Index line CRLF = None) headerLines →
  ParseHeaderLines headerLines = Some (headers, err) →
  map_Forall wfHeader headers.
Proof.
  intros Hlines Hparse.
  apply (ParseHeaderLines_loop_inv wfHeader _ _ _ _ Hparse); [|done].
  intros line key value Hin [(-> & Hne & Hkey) Hvalue]%headerOf_Some.
  rewrite Forall_forall in Hlines. apply Hlines in Hin.
  by apply Index_app_l in Hin.
Qed.

Lemma Split_tail_pieces s line lines :
  Strings.Split s CRLF = line :: lines →
  Strings.Index line CRLF = None ∧
  Forall (λ l, Strings.Index l CRLF = None) lines.
Proof.
  intros Hsplit. pose proof (Split_pieces s CRLF) as Hall.
  rewrite Hsplit in Hall. by apply Forall_cons in Hall.
Qed.

Lemma ToMethod_success token method :
  ToMethod token = (method, None) →
  (method = GET ∨ method = NOTIFY) ∧ Method_String method = token.
Proof.
  unfold ToMethod.
  destruct (String.eqb_spec token "GET") as [->|];
    [|destruct (String.eqb_spec token "NOTIFY") as [->|]]; intros [= <-]; auto.
Qed.

(** X3. A Request that [ParseRequest] returns with a nil error has Method
    [GET] or [NOTIFY] (never the [InvalidMethod] sentinel), a Version made
    of two non-empty runs of digits around a dot, and only well-formed
    headers: keys not empty, without colon and without CRLF, values without
    line feed. *)
Theorem ParseRequest_success_fields (requestStr : string) (request : Request) :
  ParseRequest requestStr = Some (request, None) →
  (request_Method request = GET ∨ request_Method request = NOTIFY) ∧
  request_Method request ≠ InvalidMethod ∧
  versionShape (request_Version request) ∧
  map_Forall wfHeader (request_Headers request).
Proof.
  intros (token & major & minor & headerLines & Hsplit & Hmajor & Hminor &
          Hmethod & _ & Hversion & Hheaders)%ParseRequest_success.
  apply ToMethod_success in Hmethod as [Hmethod _].
  apply Split_tail_pieces in Hsplit as [_ Hlines].
  split_and!.
  - done.
  - by destruct Hmethod as [-> | ->].
  - rewrite Hversion. by exists major, minor.
  - by apply (ParseHeaderLines_wfHeader headerLines _ None).
Qed.

Lemma ParseRequest_success_fields_witness :
  request_Method (mkRequest GET SHIORI "2.6" {["Sender" := "test"]}) ≠ InvalidMethod.
Proof.
  apply (ParseRequest_success_fields
           ("GET SHIORI/2.6" +:+ CRLF +:+ "Sender: test" +:+ CRLF +:+ CRLF)).
  vm_compute. reflexivity.
Defined.

(** X4. Every entry of the map [ParseHeaderLines] returns, with or without
    an error, was read from one of the given lines: the line is the key, a
    colon, a space and the value; the key is not empty and has no colon,
    the value has no line feed. *)
Theorem ParseHeaderLines_entries (headerLines : list string) (headers : Headers)
    (err : option error) :
  ParseHeaderLines headerLines = Some (headers, err) →
  map_Forall (λ key value,
                key ≠ "" ∧ noColon key ∧ noLF value ∧
                (key +:+ ": " +:+ value) ∈ headerLines) headers.
Proof.
  intros Hparse. apply (ParseHeaderLines_loop_inv _ _ _ _ _ Hparse); [|done].
  intros line key value Hin [(-> & Hne & Hkey) Hvalue]%headerOf_Some. done.
Qed.

Lemma ParseHeaderLines_entries_witness :
  (("Sender" +:+ ": " +:+ "test") : string) ∈ ["Sender: test"; "BadLineNoColon"].
Proof.
  refine (proj2 (proj2 (proj2
    (ParseHeaderLines_entries ["Sender: test"; "BadLineNoColon"]
       {["Sender" := "test"]}
       (Some (ParseHeaderError "header line parse failed: BadLineNoColon"))
       _ "Sender" "test" _)))).
  - vm_compute. reflexivity.
  - vm_compute. reflexivity.
Defined.

(** X5. The only error of [ParseHeaderLines] is a [ParseHeaderError], and it
    carries one of the given lines: a non-empty line that is not a name
    without colon, a colon, a space and a value without line feed. *)
Theorem ParseHeaderLines_error (headerLines : list string) (headers : Headers)
    (err : error) :
  ParseHeaderLines headerLines = Some (headers, Some err) →
  ∃ line,
    line ∈ headerLines ∧ line ≠ "" ∧
    (∀ name value, ¬ (headerShape line name value ∧ noLF value)) ∧
    err = ParseHeaderError ("header line parse failed: " +:+ line).
Proof.
  intros (line & Hin & Hne & Hno & ->)%ParseHeaderLines_loop_error.
  exists line. split_and!; [done..| |done].
  intros name value Hshape%headerOf_Some. congruence.
Qed.

Lemma ParseHeaderLines_error_witness :
  ∃ line,
    line ∈ ["A: 1"; "B: x" +:+ String LF "y"] ∧ line ≠ "" ∧
    (∀ name value, ¬ (headerShape line name value ∧ noLF value)) ∧
    ParseHeaderError ("header line parse failed: B: x" +:+ String LF "y") =
    ParseHeaderError ("header line parse failed: " +:+ line).
Proof.
  apply (ParseHeaderLines_error _ {["A" := "1"]}). vm_compute. reflexivity.
Defined.

(** The status line of a text that parses without error. *)
Lemma ParseResponse_success intSize responseStr response :
  0 < intSize →
  ParseResponse intSize responseStr = Some (response, None) →
  ∃ major minor code reason headerLines,
    Strings.Split responseStr CRLF =
      ("SHIORI/" +:+ major +:+ "." +:+ minor +:+ " " +:+ code +:+ " " +:+ reason)
        :: headerLines ∧
    digits major ∧ digits minor ∧ digits code ∧ reason ≠ "" ∧ noLF reason ∧
    decimal code < 2 ^ (intSize - 1) ∧
    response_Code response = decimal code ∧
    response_Protocol response = SHIORI ∧
    response_Version response = major +:+ "." +:+ minor ∧
    ParseHeaderLines headerLines = Some (response_Headers response, None).
Proof.
  intros Hsize.
  destruct (Split_cons responseStr CRLF) as (line & headerLines & Hsplit).
  destruct (FindStringSubmatch statusLineRe line) as [m|] eqn:Hm.
  - apply statusLineRe_sound in Hm
      as (major & minor & code & reason & Hshape & Hreason & _).
    rewrite (ParseResponse_match _ _ _ _ _ _ _ _ Hsize Hsplit Hshape Hreason).
    destruct (Z.ltb_spec (decimal code) (2 ^ (intSize - 1))); [|done].
    destruct (ParseHeaderLines headerLines) as [[headers err]|] eqn:Hheaders; [|done].
    simpl. intros [= <- ->].
    destruct Hshape as (-> & ? & ? & ? & ?).
    by exists major, minor, code, reason, headerLines.
  - by rewrite (ParseResponse_no_match _ _ _ _ Hsplit Hm).
Qed.

(** X6. The errors of [ParseResponse] are of three kinds: a
    [ParseResponseError] that carries line 0, returned with a Response
    that has no field set but Protocol; the range error of [Atoi] for a
    code of digits too large for an [int], returned with the largest
    [int] as Code and without headers; a [ParseHeaderError].  [Atoi] never
    fails with a syntax error here. *)
Theorem ParseResponse_errors (intSize : Z) (responseStr : string)
    (response : Response) (err : error) :
  0 < intSize →
  ParseResponse intSize responseStr = Some (response, Some err) →
  (∃ statusLine headerLines,
     Strings.Split responseStr CRLF = statusLine :: headerLines ∧
     err = ParseResponseError ("status line parse failed: " +:+ statusLine) ∧
     response = mkResponse 0 SHIORI "" ∅) ∨
  (∃ code,
     digits code ∧ 2 ^ (intSize - 1) ≤ decimal code ∧
     err = NumError "Atoi" code ErrRange ∧
     response_Code response = 2 ^ (intSize - 1) - 1 ∧
     response_Headers response = ∅) ∨
  (∃ line, line ≠ "" ∧
     err = ParseHeaderError ("header line parse failed: " +:+ line)).
Proof.
  intros Hsize.
  destruct (Split_cons responseStr CRLF) as (line & headerLines & Hsplit).
  destruct (FindStringSubmatch statusLineRe line) as [m|] eqn:Hm.
  - apply statusLineRe_sound in Hm
      as (major & minor & code & reason & Hshape & Hreason & _).
    rewrite (ParseResponse_match _ _ _ _ _ _ _ _ Hsize Hsplit Hshape Hreason).
    destruct (Z.ltb_spec (decimal code) (2 ^ (intSize - 1))).
    + destruct (ParseHeaderLines headerLines) as [[headers e]|] eqn:Hheaders; [|done].
      simpl. intros [= <- ->]. right. right.
      apply ParseHeaderLines_loop_error in Hheaders as (l & _ & ? & _ & ->).
      by exists l.
    + intros [= <- <-]. right. left. exists code.
      by destruct Hshape as (_ & _ & _ & ? & _).
  - rewrite (ParseResponse_no_match _ _ _ _ Hsplit Hm). intros [= <- <-].
    left. by exists line, headerLines.
Qed.

Lemma ParseResponse_errors_witness :
  (∃ statusLine headerLines,
     Strings.Split ("SHIORI/3.0 99999999999 OK" +:+ CRLF +:+ CRLF) CRLF =
       statusLine :: headerLines ∧
     NumError "Atoi" "99999999999" ErrRange =
       ParseResponseError ("status line parse failed: " +:+ statusLine) ∧
     mkResponse 2147483647 SHIORI "3.0" ∅ = mkResponse 0 SHIORI "" ∅) ∨
  (∃ code,
     digits code ∧ 2 ^ (32 - 1) ≤ decimal code ∧
     NumError "Atoi" "99999999999" ErrRange = NumError "Atoi" code ErrRange ∧
     response_Code (mkResponse 2147483647 SHIORI "3.0" ∅) = 2 ^ (32 - 1) - 1 ∧
     response_Headers (mkResponse 2147483647 SHIORI "3.0" ∅) = ∅) ∨
  (∃ line, line ≠ "" ∧
     NumError "Atoi" "99999999999" ErrRange =
       ParseHeaderError ("header line parse failed: " +:+ line)).
Proof.
  apply (ParseResponse_errors 32 ("SHIORI/3.0 99999999999 OK" +:+ CRLF +:+ CRLF));
    [lia|]. vm_compute. reflexivity.
Defined.

(** X7. A Response that [ParseResponse] returns with a nil error has a Code
    that is not negative and fits an [int], a Version made of two non-empty
    runs of digits around a dot, and only well-formed headers. *)
Theorem ParseResponse_success_fields (intSize : Z) (responseStr : string)
    (response : Response) :
  0 < intSize →
  ParseResponse intSize responseStr = Some (response, None) →
  0 ≤ response_Code response < 2 ^ (intSize - 1) ∧
  versionShape (response_Version response) ∧
  map_Forall wfHeader (response_Headers response).
Proof.
  intros Hsize (major & minor & code & reason & headerLines & Hsplit & Hmajor &
                Hminor & Hcode & _ & _ & Hfit & -> & _ & -> & Hheaders)
                %ParseResponse_success; [|done].
  apply Split_tail_pieces in Hsplit as [_ Hlines].
  split_and!.
  - apply decimal_nonneg, Hcode.
  - done.
  - by exists major, minor.
  - by apply (ParseHeaderLines_wfHeader headerLines _ None).
Qed.

Lemma ParseResponse_success_fields_witness :
  0 ≤ response_Code (mkResponse 200 SHIORI "3.0" {["Sender" := "A"]}) < 2 ^ (64 - 1).
Proof.
  apply (ParseResponse_success_fields 64
           ("SHIORI/3.0 200 OK" +:+ CRLF +:+ "Sender: A" +:+ CRLF +:+ CRLF));
    [lia|]. vm_compute. reflexivity.
Defined.

(** The parsers look at the text only through its lines. *)
Lemma ParseRequest_ext s s' line lines lines' :
  Strings.Split s CRLF = line :: lines →
  Strings.Split s' CRLF = line :: lines' →
  ParseHeaderLines lines = ParseHeaderLines lines' →
  ParseRequest s = ParseRequest s'.
Proof.
  intros Hs Hs' Hlines. unfold ParseRequest.
  rewrite Hs, Hs', !slice_from_tail. simpl. by rewrite Hlines.
Qed.

Lemma ParseResponse_ext intSize s s' line lines lines' :
  Strings.Split s CRLF = line :: lines →
  Strings.Split s' CRLF = line :: lines' →
  ParseHeaderLines lines = ParseHeaderLines lines' →
  ParseResponse intSize s = ParseResponse intSize s'.
Proof.
  intros Hs Hs' Hlines. unfold ParseResponse.
  rewrite Hs, Hs', !slice_from_tail. simpl. by rewrite Hlines.
Qed.

(** X8. What follows the first empty line of a message is ignored: for every
    text [head] and every [tail], the text [head CRLF CRLF tail] is parsed as
    [head CRLF CRLF] is. *)
Theorem text_after_blank_line_ignored (intSize : Z) (head tail : string) :
  ParseRequest (head +:+ CRLF +:+ CRLF +:+ tail) =
    ParseRequest (head +:+ CRLF +:+ CRLF) ∧
  ParseResponse intSize (head +:+ CRLF +:+ CRLF +:+ tail) =
    ParseResponse intSize (head +:+ CRLF +:+ CRLF).
Proof.
  destruct (Split_cons head CRLF) as (line & lines & Hhead).
  assert (∀ t, Strings.Split (head +:+ CRLF +:+ CRLF +:+ t) CRLF =
               line :: lines ++ "" :: Strings.Split t CRLF) as Hsplit.
  { intros t.
    by rewrite Split_app_CRLF, Hhead, <-(str_app_nil_l (CRLF +:+ t)), Split_app_CRLF. }
  assert (head +:+ CRLF +:+ CRLF = head +:+ CRLF +:+ CRLF +:+ "") as Hnil
    by by rewrite str_app_nil_r.
  assert (∀ t, ParseHeaderLines (lines ++ "" :: Strings.Split t CRLF) =
               ParseHeaderLines lines) as Hstop.
  { intros t. apply ParseHeaderLines_loop_stop. }
  split.
  - rewrite Hnil.
    apply (ParseRequest_ext _ _ _ _ _ (Hsplit tail) (Hsplit "")).
    by rewrite !Hstop.
  - rewrite Hnil.
    apply (ParseResponse_ext _ _ _ _ _ _ (Hsplit tail) (Hsplit "")).
    by rewrite !Hstop.
Qed.

(** ** Rendering, then parsing *)

Lemma request_line_Index token version :
  noLF token → versionShape version →
  Strings.Index (token +:+ " SHIORI/" +:+ version) CRLF = None.
Proof.
  intros Htoken Hversion%versionShape_noLF. apply noLF_Index.
  unfold noLF in *. rewrite !str_all_app. by rewrite Htoken, Hversion.
Qed.

Lemma status_line_Index version code reason :
  versionShape version → noLF code → noLF reason →
  Strings.Index ("SHIORI/" +:+ version +:+ " " +:+ code +:+ " " +:+ reason) CRLF
  = None.
Proof.
  intros Hversion%versionShape_noLF Hcode Hreason. apply noLF_Index.
  unfold noLF in *. rewrite !str_all_app. by rewrite Hversion, Hcode, Hreason.
Qed.

Lemma Request_String_in_eq order request :
  Request_String_in order request =
  (Method_String (request_Method request) +:+ " SHIORI/" +:+ request_Version request)
    +:+ CRLF +:+ Headers_String_in order +:+ CRLF.
Proof. unfold Request_String_in, Protocol_String. by norm_app. Qed.

Lemma Response_String_in_eq order response :
  Response_String_in order response =
  ("SHIORI/" +:+ response_Version response +:+ " " +:+
   Strconv.Itoa (response_Code response) +:+ " " +:+ Response_Message response)
    +:+ CRLF +:+ Headers_String_in order +:+ CRLF.
Proof. unfold Response_String_in, Protocol_String. by norm_app. Qed.

Lemma ParseRequest_rendered order (request : Request) :
  request_Method request = GET ∨ request_Method request = NOTIFY →
  versionShape (request_Version request) →
  map_Forall wfHeader (request_Headers request) →
  rangeOrder (request_Headers request) order →
  ParseRequest (Request_String_in order request) =
    Some (mkRequest (request_Method request) SHIORI (request_Version request)
            (request_Headers request), None).
Proof.
  intros Hmethod Hversion Hwf Horder.
  set (token := Method_String (request_Method request)).
  assert (ToMethod token = (request_Method request, None) ∧
          token ≠ "" ∧ noLF token) as (Htoken & Hne & Hlf).
  { subst token. by destruct Hmethod as [-> | ->]. }
  pose proof Hversion as (major & minor & Hv & Hmajor & Hminor).
  rewrite (ParseRequest_match _
             (token +:+ " SHIORI/" +:+ request_Version request)
             (Strings.Split (Headers_String_in order) CRLF ++ [""])
             token major minor).
  - rewrite Htoken, <-Hv.
    by rewrite (ParseHeaderLines_rendered _ order [""] Hwf Horder).
  - rewrite Request_String_in_eq. fold token.
    apply Split_message. by apply request_line_Index.
  - split_and!; [by rewrite Hv|done..].
  - done.
Qed.

(** X9. Parsing the rendering of a header map gives the map back, in
    whatever order the map was ranged over, when its keys are not empty and
    have no colon and no CRLF and its values have no line feed. *)
Theorem Headers_round_trip (headers : Headers) (order : list (string * string)) :
  map_Forall wfHeader headers → rangeOrder headers order →
  ParseHeaderLines (Strings.Split (Headers_String_in order) CRLF) =
    Some (headers, None).
Proof.
  intros Hwf Horder.
  rewrite <-(app_nil_r (Strings.Split _ _)). by apply ParseHeaderLines_rendered.
Qed.

Lemma Headers_round_trip_witness :
  ParseHeaderLines (Strings.Split (Headers_String_in [("Sender", "A")]) CRLF) =
    Some ({["Sender" := "A"]}, None).
Proof.
  apply Headers_round_trip.
  - apply map_Forall_singleton. repeat split; by vm_compute.
  - unfold rangeOrder. by rewrite map_to_list_singleton.
Defined.

(** X10. Parsing the rendering of a Request gives the Request back (with
    Protocol [SHIORI]), in whatever order its headers were ranged over,
    when its Method is [GET] or [NOTIFY], its Version is two runs of digits
    around a dot and its headers are well formed. *)
Theorem Request_round_trip (order : list (string * string)) (request : Request) :
  request_Method request = GET ∨ request_Method request = NOTIFY →
  versionShape (request_Version request) →
  map_Forall wfHeader (request_Headers request) →
  rangeOrder (request_Headers request) order →
  ParseRequest (Request_String_in order request) =
    Some (mkRequest (request_Method request) SHIORI (request_Version request)
            (request_Headers request), None).
Proof. apply ParseRequest_rendered. Qed.

Lemma Request_round_trip_witness :
  ParseRequest
    (Request_String_in [("Charset", "UTF-8")]
       (mkRequest NOTIFY InvalidProtocol "3.0" {["Charset" := "UTF-8"]})) =
    Some (mkRequest NOTIFY SHIORI "3.0" {["Charset" := "UTF-8"]}, None).
Proof.
  refine (Request_round_trip [("Charset", "UTF-8")]
            (mkRequest NOTIFY InvalidProtocol "3.0" {["Charset" := "UTF-8"]})
            _ _ _ _).
  - by right.
  - exists "3", "0". repeat split; by vm_compute.
  - apply map_Forall_singleton. repeat split; by vm_compute.
  - unfold rangeOrder. simpl. by rewrite map_to_list_singleton.
Defined.

(** X11. Parsing is stable under rendering: a Request parsed without error,
    rendered in any order of its headers and parsed again, is the same
    Request, again without error. *)
Theorem ParseRequest_render_parse (requestStr : string) (request : Request)
    (order : list (string * string)) :
  ParseRequest requestStr = Some (request, None) →
  rangeOrder (request_Headers request) order →
  ParseRequest (Request_String_in order request) = Some (request, None).
Proof.
  intros Hparse Horder.
  pose proof Hparse as (token & major & minor & headerLines & Hsplit & Hmajor &
                        Hminor & Hmethod & Hprotocol & Hversion & Hheaders)
                       %ParseRequest_success.
  apply ToMethod_success in Hmethod as [Hmethod _].
  apply Split_tail_pieces in Hsplit as [_ Hlines].
  rewrite ParseRequest_rendered; try done.
  - destruct request. simpl in *. by subst.
  - rewrite Hversion. by exists major, minor.
  - by apply (ParseHeaderLines_wfHeader headerLines _ None).
Qed.

Lemma ParseRequest_render_parse_witness :
  ParseRequest
    (Request_String_in [("Sender", "test")]
       (mkRequest GET SHIORI "2.6" {["Sender" := "test"]})) =
    Some (mkRequest GET SHIORI "2.6" {["Sender" := "test"]}, None).
Proof.
  apply (ParseRequest_render_parse
           ("GET SHIORI/2.6" +:+ CRLF +:+ "Sender: test" +:+ CRLF +:+ CRLF
              +:+ "ignored")).
  - vm_compute. reflexivity.
  - unfold rangeOrder. simpl. by rewrite map_to_list_singleton.
Defined.

Lemma ParseResponse_rendered_200 (intSize : Z) (order : list (string * string))
    (response : Response) :
  200 < 2 ^ (intSize - 1) →
  response_Code response = 200 →
  versionShape (response_Version response) →
  map_Forall wfHeader (response_Headers response) →
  rangeOrder (response_Headers response) order →
  ParseResponse intSize (Response_String_in order response) =
    Some (mkResponse 200 SHIORI (response_Version response)
            (response_Headers response), None).
Proof.
  intros Hfit Hcode Hversion Hwf Horder.
  assert (0 < intSize) as Hsize.
  { destruct (Z.lt_ge_cases 0 intSize) as [|Hle]; [done|].
    destruct (Z.eq_dec intSize 0) as [->|]; [done|].
    rewrite Z.pow_neg_r in Hfit by lia. lia. }
  pose proof Hversion as (major & minor & Hv & Hmajor & Hminor).
  rewrite (ParseResponse_match _ _
             ("SHIORI/" +:+ response_Version response +:+ " 200 OK")
             (Strings.Split (Headers_String_in order) CRLF ++ [""])
             major minor "200" "OK"); [|done| | |done].
  - change (decimal "200") with 200.
    destruct (Z.ltb_spec 200 (2 ^ (intSize - 1))); [|lia].
    by rewrite <-Hv, (ParseHeaderLines_rendered _ order [""] Hwf Horder).
  - rewrite Response_String_in_eq. unfold Response_Message. rewrite Hcode.
    change (Strconv.Itoa 200) with "200". simpl.
    replace ("SHIORI/" +:+ response_Version response +:+ " " +:+ "200" +:+ " " +:+ "OK")
      with ("SHIORI/" +:+ response_Version response +:+ " 200 OK") by by norm_app.
    apply Split_message.
    apply (status_line_Index _ "200" "OK" Hversion); done.
  - split_and!; [rewrite Hv; by norm_app|done..].
Qed.

(** X12. A Response with Code 200 round-trips: parsing its rendering gives
    it back (with Protocol [SHIORI]) and no error, in whatever order its
    headers were ranged over, when its Version is two runs of digits around
    a dot, its headers are well formed and 200 fits an [int]. *)
Theorem Response_200_round_trip (intSize : Z) (order : list (string * string))
    (response : Response) :
  200 < 2 ^ (intSize - 1) →
  response_Code response = 200 →
  versionShape (response_Version response) →
  map_Forall wfHeader (response_Headers response) →
  rangeOrder (response_Headers response) order →
  ParseResponse intSize (Response_String_in order response) =
    Some (mkResponse 200 SHIORI (response_Version response)
            (response_Headers response), None).
Proof. apply ParseResponse_rendered_200. Qed.

Lemma Response_200_round_trip_witness :
  ParseResponse 64
    (Response_String_in [("Sender", "A")]
       (mkResponse 200 SHIORI "3.0" {["Sender" := "A"]})) =
    Some (mkResponse 200 SHIORI "3.0" {["Sender" := "A"]}, None).
Proof.
  refine (Response_200_round_trip 64 [("Sender", "A")]
            (mkResponse 200 SHIORI "3.0" {["Sender" := "A"]}) _ _ _ _ _).
  - by vm_compute.
  - done.
  - exists "3", "0". repeat split; by vm_compute.
  - apply map_Forall_singleton. repeat split; by vm_compute.
  - unfold rangeOrder. simpl. by rewrite map_to_list_singleton.
Defined.

Lemma ParseResponse_rendered_not_200 (intSize : Z)
    (order : list (string * string)) (response : Response) :
  versionShape (response_Version response) →
  response_Code response ≠ 200 →
  ParseResponse intSize (Response_String_in order response) =
    Some (mkResponse 0 SHIORI "" ∅,
          Some (ParseResponseError
                  ("status line parse failed: SHIORI/" +:+
                   response_Version response +:+ " " +:+
                   Strconv.Itoa (response_Code response) +:+ " "))).
Proof.
  intros Hversion Hcode.
  assert (Response_Message response = "") as Hmsg.
  { unfold Response_Message.
    by destruct (Z.eqb_spec (response_Code response) 200). }
  rewrite (ParseResponse_no_match _ _
             ("SHIORI/" +:+ response_Version response +:+ " " +:+
              Strconv.Itoa (response_Code response) +:+ " ")
             (Strings.Split (Headers_String_in order) CRLF ++ [""])).
  - by norm_app.
  - rewrite Response_String_in_eq, Hmsg. apply Split_message.
    apply (status_line_Index _ _ "" Hversion); [apply Itoa_noLF|done].
  - by apply statusLineRe_empty_reason.
Qed.

(** X13. A Response whose Code is not 200 does not round-trip: its rendering
    has an empty reason phrase, and [ParseResponse] rejects it with the
    [ParseResponseError] of the status line, whatever its headers are. *)
Theorem Response_not_200_rejected (intSize : Z) (order : list (string * string))
    (response : Response) :
  versionShape (response_Version response) →
  response_Code response ≠ 200 →
  ParseResponse intSize (Response_String_in order response) =
    Some (mkResponse 0 SHIORI "" ∅,
          Some (ParseResponseError
                  ("status line parse failed: SHIORI/" +:+
                   response_Version response +:+ " " +:+
                   Strconv.Itoa (response_Code response) +:+ " "))).
Proof. apply ParseResponse_rendered_not_200. Qed.

Lemma Response_not_200_rejected_witness :
  ParseResponse 64
    (Response_String_in [] (mkResponse 500 SHIORI "3.0" ∅)) =
    Some (mkResponse 0 SHIORI "" ∅,
          Some (ParseResponseError "status line parse failed: SHIORI/3.0 500 ")).
Proof.
  refine (Response_not_200_rejected 64 [] (mkResponse 500 SHIORI "3.0" ∅) _ _).
  - exists "3", "0". repeat split; by vm_compute.
  - done.
Defined.

(** X14. A Request parsed without error renders its request line as it was
    read: the rendering is line 0 of the parsed text, CRLF, the rendered
    headers and CRLF. *)
Theorem ParseRequest_request_line_verbatim (requestStr requestLine : string)
    (headerLines : list string) (request : Request)
    (order : list (string * string)) :
  ParseRequest requestStr = Some (request, None) →
  Strings.Split requestStr CRLF = requestLine :: headerLines →
  Request_String_in order request =
    requestLine +:+ CRLF +:+ Headers_String_in order +:+ CRLF.
Proof.
  intros (token & major & minor & headerLines' & Hsplit & _ & _ & Hmethod & _ &
          Hversion & _)%ParseRequest_success Hsplit'.
  rewrite Hsplit in Hsplit'. injection Hsplit' as <- _.
  apply ToMethod_success in Hmethod as [_ Htoken].
  rewrite Request_String_in_eq, Htoken, Hversion. by norm_app.
Qed.

Lemma ParseRequest_request_line_verbatim_witness :
  Request_String_in [("Sender", "test")]
    (mkRequest GET SHIORI "2.6" {["Sender" := "test"]}) =
  "GET SHIORI/2.6" +:+ CRLF +:+ Headers_String_in [("Sender", "test")] +:+ CRLF.
Proof.
  apply (ParseRequest_request_line_verbatim
           ("GET SHIORI/2.6" +:+ CRLF +:+ "Sender: test" +:+ CRLF +:+ CRLF)
           "GET SHIORI/2.6" ["Sender: test"; ""; ""]); by vm_compute.
Defined.

(** X15. A Request whose Method is neither [GET] nor [NOTIFY], the
    [InvalidMethod] sentinel included, is rendered with an empty method
    token, and [ParseRequest] rejects the rendering with the
    [ParseRequestError] of its request line. *)
Theorem Request_invalid_method_rejected (order : list (string * string))
    (request : Request) :
  request_Method request ≠ GET → request_Method request ≠ NOTIFY →
  versionShape (request_Version request) →
  ParseRequest (Request_String_in order request) =
    Some (mkRequest InvalidMethod SHIORI "" ∅,
          Some (ParseRequestError
                  ("request line parse failed:  SHIORI/" +:+
                   request_Version request))).
Proof.
  intros Hget Hnotify Hversion.
  assert (Method_String (request_Method request) = "") as Hmethod.
  { unfold Method_String.
    destruct (Z.eqb_spec (request_Method request) GET); [done|].
    by destruct (Z.eqb_spec (request_Method request) NOTIFY). }
  rewrite (ParseRequest_no_match _ (" SHIORI/" +:+ request_Version request)
             (Strings.Split (Headers_String_in order) CRLF ++ [""])).
  - by norm_app.
  - rewrite Request_String_in_eq, Hmethod, str_app_nil_l. apply Split_message.
    by apply (request_line_Index "").
  - by apply requestLineRe_empty_token.
Qed.

Lemma Request_invalid_method_rejected_witness :
  ParseRequest (Request_String_in [] (mkRequest InvalidMethod SHIORI "3.0" ∅)) =
    Some (mkRequest InvalidMethod SHIORI "" ∅,
          Some (ParseRequestError "request line parse failed:  SHIORI/3.0")).
Proof.
  refine (Request_invalid_method_rejected []
            (mkRequest InvalidMethod SHIORI "3.0" ∅) _ _ _); try done.
  exists "3", "0". repeat split; by vm_compute.
Defined.

(** X16. [ToMethod] inverts [Method.String] on [GET] and [NOTIFY] only: every
    other Method value, the [InvalidMethod] sentinel included, is rendered as
    the empty string, which [ToMethod] rejects. *)
Theorem ToMethod_Method_String (method : Method) :
  (ToMethod (Method_String method) = (method, None) ↔
   method = GET ∨ method = NOTIFY) ∧
  (method ≠ GET → method ≠ NOTIFY →
   Method_String method = "" ∧
   ToMethod (Method_String method) =
     (InvalidMethod, Some (InvalidMethodError ""))).
Proof.
  unfold Method_String.
  destruct (Z.eqb_spec method GET) as [->|Hget];
    [|destruct (Z.eqb_spec method NOTIFY) as [->|Hnotify]].
  - split; [split; [by left|done]|done].
  - split; [split; [by right|done]|done].
  - split; [|done]. split; [done|]. by intros [-> | ->].
Qed.

Lemma ToMethod_Method_String_witness :
  Method_String 7 = "" ∧
  ToMethod (Method_String 7) = (InvalidMethod, Some (InvalidMethodError "")).
Proof. by apply (ToMethod_Method_String 7). Defined.

(** X17. [Reference(i)] reads the header named [Reference] followed by the
    decimal rendering of [i], and distinct indices read distinct headers:
    after the header of index [i] is set, [Reference(i)] is the new value and
    [Reference(j)] is unchanged for every other [j]; the same holds of a
    Response. *)
Theorem Reference_insert (headers : Headers) (i j : Z) (value : string)
    (method : Method) (protocol : Protocol) (version : string) (code : Z) :
  Request_Reference
    (mkRequest method protocol version
       (<["Reference" +:+ Strconv.Itoa i := value]> headers)) j =
    (if decide (i = j) then value
     else Request_Reference (mkRequest method protocol version headers) j) ∧
  Response_Reference
    (mkResponse code protocol version
       (<["Reference" +:+ Strconv.Itoa i := value]> headers)) j =
    (if decide (i = j) then value
     else Response_Reference (mkResponse code protocol version headers) j).
Proof.
  unfold Request_Reference, Response_Reference, get. simpl.
  destruct (decide (i = j)) as [->|Hne].
  - by rewrite lookup_insert_eq.
  - rewrite lookup_insert_ne; [done|].
    intros Heq. apply Hne, Itoa_inj.
    by apply (inj (String.app "Reference")) in Heq.
Qed.

(** X18. [strings.Split] at CRLF loses nothing: joining the lines with CRLF
    gives the text back, and no line holds a CRLF. *)
Theorem Split_CRLF_lines (s : string) :
  String.concat CRLF (Strings.Split s CRLF) = s ∧
  Forall (λ line, Strings.Index line CRLF = None) (Strings.Split s CRLF).
Proof. split; [by apply Split_concat|by apply Split_pieces]. Qed.

(** X19. The messages of the four error types tell the kind of error and
    its payload: two errors with the same message are of the same kind and
    carry the same text. *)
Theorem Error_messages_distinct (a b : string) :
  (InvalidMethodError_Error a = InvalidMethodError_Error b → a = b) ∧
  (ParseRequestError_Error a = ParseRequestError_Error b → a = b) ∧
  (ParseResponseError_Error a = ParseResponseError_Error b → a = b) ∧
  (ParseHeaderError_Error a = ParseHeaderError_Error b → a = b) ∧
  InvalidMethodError_Error a ≠ ParseRequestError_Error b ∧
  InvalidMethodError_Error a ≠ ParseResponseError_Error b ∧
  InvalidMethodError_Error a ≠ ParseHeaderError_Error b ∧
  ParseRequestError_Error a ≠ ParseResponseError_Error b ∧
  ParseRequestError_Error a ≠ ParseHeaderError_Error b ∧
  ParseResponseError_Error a ≠ ParseHeaderError_Error b.
Proof.
  unfold InvalidMethodError_Error, ParseRequestError_Error,
    ParseResponseError_Error, ParseHeaderError_Error.
  split_and!; norm_app; intros Heq; by simplify_eq.
Qed.

Lemma Error_messages_distinct_witness :
  ("FOO" : string) = "FOO".
Proof. by apply (Error_messages_distinct "FOO" "FOO"). Defined.

(** The loop started from a map is the loop started from the empty map, laid
    over that map. *)
Lemma ParseHeaderLines_loop_union headers headerLines :
  ParseHeaderLines_loop headers headerLines =
    (λ '(h, err), (h ∪ headers, err)) <$> ParseHeaderLines_loop ∅ headerLines.
Proof.
  revert headers. induction headerLines as [|line ls IH]; intros h; simpl.
  - by rewrite (left_id_L ∅ (∪) h).
  - destruct (String.eqb line ""); [simpl; by rewrite (left_id_L ∅ (∪) h)|].
    destruct (FindStringSubmatch headerRe line) as [m|];
      [|simpl; by rewrite (left_id_L ∅ (∪) h)].
    destruct (index m 1) as [k|]; [|done]. destruct (index m 2) as [v|]; [|done].
    simpl. rewrite (IH (<[k:=v]> h)), (IH (<[k:=v]> ∅)).
    destruct (ParseHeaderLines_loop ∅ ls) as [[h0 e]|]; [|done]. simpl.
    do 2 f_equal. rewrite <-(assoc_L (∪)). f_equal.
    by rewrite <-insert_union_l, (left_id_L ∅ (∪) h).
Qed.

(** X20. Header blocks compose: parsing a block of header lines followed by
    more lines gives the error of the later lines, and their headers laid
    over those of the block (a later line wins over an earlier one with the
    same name). *)
Theorem ParseHeaderLines_app (block rest : list string) (headers : Headers)
    (err : option error) :
  Forall headerLine block →
  ParseHeaderLines rest = Some (headers, err) →
  ∃ headers0,
    ParseHeaderLines block = Some (headers0, None) ∧
    ParseHeaderLines (block ++ rest) = Some (headers ∪ headers0, err).
Proof.
  intros Hblock Hrest. exists (insertAll ∅ (omap headerOf block)).
  unfold ParseHeaderLines in *. split.
  - by apply ParseHeaderLines_loop_headerLines.
  - assert (∀ h : Headers,
              ParseHeaderLines_loop h (block ++ rest) =
                Some (headers ∪ insertAll h (omap headerOf block), err)) as Hloop;
      [|apply Hloop].
    induction Hblock as [|line block [Hne [[k v] Hkv]] _ IH]; intros h.
    + simpl. by rewrite ParseHeaderLines_loop_union, Hrest.
    + rewrite <-app_comm_cons, (ParseHeaderLines_loop_step _ _ k v) by done.
      rewrite IH. simpl. by rewrite Hkv.
Qed.

Lemma ParseHeaderLines_app_witness :
  ∃ headers0,
    ParseHeaderLines ["A: 1"; "B: x"] = Some (headers0, None) ∧
    ParseHeaderLines (["A: 1"; "B: x"] ++ ["A: 2"; ""]) =
      Some ({["A" := "2"]} ∪ headers0, None).
Proof.
  apply (ParseHeaderLines_app ["A: 1"; "B: x"] ["A: 2"; ""]).
  - repeat constructor; try discriminate; vm_compute; eauto.
  - vm_compute. reflexivity.
Defined.

(** X21. A header line is cut at its first colon: for a non-empty key
    without colon and any value without line feed, empty or with colons of
    its own, the line [key: value] is read as that key and that value. *)
Theorem ParseHeaderLines_single_line (key value : string) :
  key ≠ "" → noColon key → noLF value →
  ParseHeaderLines [key +:+ ": " +:+ value] = Some ({[key := value]}, None).
Proof.
  intros Hne Hkey Hvalue.
  assert (headerOf (key +:+ ": " +:+ value) = Some (key, value)) as Hkv
    by by apply headerOf_Some.
  unfold ParseHeaderLines.
  rewrite (ParseHeaderLines_loop_step _ _ key value); [done| |done].
  by destruct key.
Qed.

Lemma ParseHeaderLines_single_line_witness :
  ParseHeaderLines ["Reference0" +:+ ": " +:+ "a: b: c"] =
    Some ({["Reference0" := "a: b: c"]}, None).
Proof. apply ParseHeaderLines_single_line; by vm_compute. Defined.

(** X22. A Response parsed without error can be parsed again from its
    rendering exactly when its Code is 200: then the second parse gives the
    same Response; for every other Code the rendering has no reason phrase
    and the second parse fails with a [ParseResponseError]. *)
Theorem ParseResponse_render_parse (intSize : Z) (responseStr : string)
    (response : Response) (order : list (string * string)) :
  0 < intSize →
  ParseResponse intSize responseStr = Some (response, None) →
  rangeOrder (response_Headers response) order →
  (response_Code response = 200 →
   ParseResponse intSize (Response_String_in order response) =
     Some (response, None)) ∧
  (response_Code response ≠ 200 →
   ∃ msg,
     ParseResponse intSize (Response_String_in order response) =
       Some (mkResponse 0 SHIORI "" ∅, Some (ParseResponseError msg))).
Proof.
  intros Hsize Hparse Horder.
  pose proof Hparse as (major & minor & code & reason & headerLines & Hsplit &
                        Hmajor & Hminor & Hcode & _ & _ & Hfit & Hval & Hprotocol &
                        Hversion & Hheaders)%ParseResponse_success; [|done].
  assert (versionShape (response_Version response)) as Hshape.
  { rewrite Hversion. by exists major, minor. }
  split.
  - intros H200.
    assert (200 < 2 ^ (intSize - 1)) as Hfit' by by rewrite <-H200, Hval.
    assert (map_Forall wfHeader (response_Headers response)) as Hwf.
    { apply Split_tail_pieces in Hsplit as [_ Hlines].
      by apply (ParseHeaderLines_wfHeader headerLines _ None). }
    rewrite (ParseResponse_rendered_200 intSize order response) by done.
    destruct response. simpl in *. subst. by rewrite H200.
  - intros Hother. eexists. by apply ParseResponse_rendered_not_200.
Qed.

Lemma ParseResponse_render_parse_witness :
  ∃ msg,
    ParseResponse 64
      (Response_String_in [] (mkResponse 204 SHIORI "3.0" ∅)) =
      Some (mkResponse 0 SHIORI "" ∅, Some (ParseResponseError msg)).
Proof.
  refine (proj2 (ParseResponse_render_parse 64
                   ("SHIORI/3.0 204 No Content" +:+ CRLF +:+ CRLF)
                   (mkResponse 204 SHIORI "3.0" ∅) [] _ _ _) _).
  - lia.
  - vm_compute. reflexivity.
  - unfold rangeOrder. simpl. by rewrite map_to_list_empty.
  - done.
Defined.

(** X23. The accessors read what the header block says last: for a block of
    header lines, [Sender] and [Charset], of a Request or of a Response with
    the parsed headers, are the value of the last line with that name, and
    the empty string when the block has no such line. *)
Theorem accessors_read_last_line (block post : list string) :
  Forall headerLine block →
  ∃ headers : Headers,
    ParseHeaderLines (block ++ "" :: post) = Some (headers, None) ∧
    ∀ method protocol version code,
      let valueOf name :=
        default "" (last (filter (λ kv, kv.1 = name) (omap headerOf block)).*2) in
      Request_Sender (mkRequest method protocol version headers) = valueOf "Sender" ∧
      Request_Charset (mkRequest method protocol version headers) = valueOf "Charset" ∧
      Response_Sender (mkResponse code protocol version headers) = valueOf "Sender" ∧
      Response_Charset (mkResponse code protocol version headers) = valueOf "Charset".
Proof.
  intros Hblock. exists (insertAll ∅ (omap headerOf block)). split.
  - unfold ParseHeaderLines. rewrite ParseHeaderLines_loop_stop.
    by apply ParseHeaderLines_loop_headerLines.
  - intros method protocol version code. simpl.
    unfold Request_Sender, Request_Charset, Response_Sender, Response_Charset, get.
    simpl. by rewrite !insertAll_lookup.
Qed.

Lemma accessors_read_last_line_witness :
  ∃ headers : Headers,
    ParseHeaderLines (["Sender: a"; "Sender: b"] ++ "" :: ["Sender: c"]) =
      Some (headers, None) ∧
    Request_Sender (mkRequest GET SHIORI "3.0" headers) = "b" ∧
    Request_Charset (mkRequest GET SHIORI "3.0" headers) = "".
Proof.
  destruct (accessors_read_last_line ["Sender: a"; "Sender: b"] ["Sender: c"])
    as (headers & Hparse & Hacc).
  - repeat constructor; try discriminate; vm_compute; eauto.
  - exists headers. split; [done|].
    destruct (Hacc GET SHIORI "3.0" 0) as (-> & -> & _). by vm_compute.
Defined.
